(** * The ProseMirror / Micromerge bridge of Peritext (src/bridge.ts)

    A shallow embedding of the translation layer between the tree-shaped
    editor document and the flat character sequence of the CRDT:

    - [applyPatchToTransaction]: one engine patch becomes editor calls;
    - [prosemirrorDocFromCRDT]: the initial document built from format spans;
    - [applyTransaction]: the steps of a local transaction become one list
      of input operations handed to the engine;
    - [subscribeHandler]: the callback registered for incoming changes.

    JavaScript numbers that hold positions and counts are integers, modelled
    as [Z].  Exceptions are modelled by [outcome].  The editor framework, the
    CRDT engine and the mark schema live outside bridge.ts; they appear as
    interfaces (type classes) and every theorem holds for all their
    implementations. *)

From stdpp Require Import gmap strings list.
From Stdlib Require Import ZArith Lia.

Local Open Scope string_scope.
Local Open Scope list_scope.
Local Open Scope Z_scope.

(** ** JavaScript values and exceptions *)

Inductive JsValue : Type :=
| JsUndefined
| JsNull
| JsBoolean (b : bool)
| JsNumber (n : Z)
| JsString (s : string).

(** Plain objects used as attribute bags ([mark.attrs], mark values). *)
Abbreviation Attrs := (gmap string JsValue).

(** Truthiness of a property read; a missing property reads [undefined]. *)
Definition truthy (v : option JsValue) : bool :=
  match v with
  | None | Some JsUndefined | Some JsNull => false
  | Some (JsBoolean b) => b
  | Some (JsNumber n) => negb (Z.eqb n 0)
  | Some (JsString s) => negb (String.eqb s "")
  end.

(** [typeof v === "string"]. *)
Definition typeof_is_string (v : option JsValue) : bool :=
  match v with
  | Some (JsString _) => true
  | _ => false
  end.

Inductive Error : Type :=
| InvalidMarkType (name : string)
| ExpectedCommentId
| ExpectedLinkUrl
| EmptyTextNode
| Unreachable (action : string)
| ExternalError (msg : string).

Inductive outcome (A : Type) : Type :=
| Returns (a : A)
| Throws (e : Error).
Arguments Returns {A} a.
Arguments Throws {A} e.

#[global] Instance outcome_ret : MRet outcome := fun A a => Returns a.
#[global] Instance outcome_bind : MBind outcome := fun A B f m =>
  match m with
  | Returns a => f a
  | Throws e => Throws e
  end.

(** ** The tree document (prosemirror-model) *)

Set Warnings "-register-all".

Record Mark : Type := mkMark {
  mark_type_name : string;
  mark_attrs : option Attrs
}.

Inductive Node : Type :=
| TextNode (text : string) (marks : list Mark)
| ElementNode (name : string) (content : list Node).

Abbreviation Fragment := (list Node).

Record Slice : Type := new_Slice {
  slice_content : Fragment;
  openStart : Z;
  openEnd : Z
}.

Definition Slice_empty : Slice := new_Slice [] 0 0.
Definition Fragment_from (n : Node) : Fragment := [n].

(** [schema.mark(type, attrs)], as a plain constructor: the mark holds the
    kind and the attribute bag it is asked for.  The constructor of the
    library also refuses a kind that the schema lacks or a bag without a
    required attribute, and keeps the declared attributes only; these checks
    belong to the schema, which bridge.ts does not define.  Where they
    matter, in the projection of spans, the schema is left open (see
    [Projection]). *)
Definition schema_mark (markType : string) (attrs : option Attrs) : Mark :=
  mkMark markType attrs.

(** [schema.text(text, marks)]: the text node constructor rejects a missing
    or empty text ("Prosemirror doesn't allow for empty text nodes").  As a
    plain constructor it keeps the marks as given; the library also puts
    them in the order of the schema. *)
Definition schema_text (text : option string) (marks : list Mark) : outcome Node :=
  match text with
  | None => Throws EmptyTextNode
  | Some s => if String.eqb s "" then Throws EmptyTextNode else Returns (TextNode s marks)
  end.

(** [schema.node(name, attrs, content)], as a plain constructor; the nodes
    built here carry no attributes.  The library also checks the content
    against the schema and joins neighbouring text nodes with the same
    marks. *)
Definition schema_node (name : string) (content : Fragment) : Node :=
  ElementNode name content.

(** [fragment.textBetween(0, fragment.size)] with no block separator and no
    leaf text: the text of the text nodes, in document order. *)
Fixpoint nodeText (n : Node) : string :=
  match n with
  | TextNode text _ => text
  | ElementNode _ content =>
      (fix go (l : list Node) : string :=
         match l with
         | [] => ""
         | c :: l' => nodeText c +:+ go l'
         end) content
  end.

Definition textBetween_all (f : Fragment) : string :=
  fold_right (fun n acc => nodeText n +:+ acc) "" f.

Fixpoint countTextNodes (n : Node) : nat :=
  match n with
  | TextNode _ _ => 1%nat
  | ElementNode _ content =>
      (fix go (l : list Node) : nat :=
         match l with
         | [] => 0%nat
         | c :: l' => (countTextNodes c + go l')%nat
         end) content
  end.

(** ** Steps of a transaction (prosemirror-transform) *)

Inductive Step : Type :=
| ReplaceStep (from to : Z) (slice : option Slice)
| AddMarkStep (from to : Z) (mark : Mark)
| RemoveMarkStep (from to : Z) (mark : Mark)
| OtherStep.

(** ** Engine operations and patches (micromerge) *)

Abbreviation OperationPath := (list string).

Inductive InputOperation : Type :=
| OpInsert (path : OperationPath) (index : Z) (values : list string)
| OpDelete (path : OperationPath) (index : Z) (count : Z)
| OpAddMark (path : OperationPath) (start end_ : Z) (markType : string)
    (attrs : option Attrs)
| OpRemoveMark (path : OperationPath) (start end_ : Z) (markType : string)
    (attrs : option Attrs)
| OpMakeList (path : OperationPath) (key : string).

(** A patch is a plain object; [applyPatchToTransaction] dispatches on its
    [action] string and reads the fields of the matching variant. *)
Record Patch : Type := mkPatch {
  action : string;
  patch_path : OperationPath;
  patch_index : Z;
  patch_values : list string;
  patch_count : Z;
  patch_key : string;
  patch_start : Z;
  patch_end : Z;
  patch_markType : string;
  patch_attrs : option Attrs
}.

Definition insertPatch (path : OperationPath) (index : Z) (values : list string) : Patch :=
  mkPatch "insert" path index values 0 "" 0 0 "" None.
Definition deletePatch (path : OperationPath) (index count : Z) : Patch :=
  mkPatch "delete" path index [] count "" 0 0 "" None.
Definition makeListPatch (path : OperationPath) (key : string) : Patch :=
  mkPatch "makeList" path 0 [] 0 key 0 0 "" None.
Definition addMarkPatch (path : OperationPath) (start end_ : Z) (markType : string)
    (attrs : option Attrs) : Patch :=
  mkPatch "addMark" path 0 [] 0 "" start end_ markType attrs.
Definition removeMarkPatch (path : OperationPath) (start end_ : Z) (markType : string)
    (attrs : option Attrs) : Patch :=
  mkPatch "removeMark" path 0 [] 0 "" start end_ markType attrs.

(** The five actions that [applyPatchToTransaction] has a case for. *)
Definition handledActions : list string :=
  ["insert"; "delete"; "makeList"; "addMark"; "removeMark"].

(** ** Format spans (micromerge / format) *)

(** The value stored under a mark kind: an array for a mark that allows
    several instances, a single object with an [active] flag otherwise. *)
Inductive MarkMapValue : Type :=
| MarkValueList (values : list Attrs)
| MarkValueSingle (value : Attrs).

Record FormatSpanWithText : Type := mkSpan {
  span_text : string;
  span_marks : gmap string MarkMapValue
}.

(** ** Interfaces of the collaborators *)

(** ./schema: the declaration order of the mark kinds and the type guard. *)
Class MarkSchema : Type := {
  ALL_MARKS : list string;
  isMarkType : string -> bool
}.

(** ./micromerge: the engine object [doc] is mutable; its methods take the
    current engine state and return the new one. *)
Class Engine : Type := {
  Micromerge : Type;
  Change : Type;
  contentKey : string;
  doc_change : Micromerge -> list InputOperation -> outcome Change * Micromerge;
  doc_applyChange : Micromerge -> Change -> outcome (list Patch) * Micromerge
}.

(** prosemirror-state / prosemirror-transform: transactions and states. *)
Class ProseMirror : Type := {
  Transaction : Type;
  EditorState : Type;
  tr_replace : Transaction -> Z -> Z -> Slice -> outcome Transaction;
  tr_addMark : Transaction -> Z -> Z -> Mark -> outcome Transaction;
  tr_removeMark : Transaction -> Z -> Z -> Mark -> outcome Transaction;
  tr_doc_content_size : Transaction -> Z;
  tr_steps : Transaction -> list Step;
  state_tr : EditorState -> Transaction;
  state_apply : EditorState -> Transaction -> outcome EditorState
}.

(** [s.split("")]: the characters of [s], each as a one-character string. *)
Fixpoint split_chars (s : string) : list string :=
  match s with
  | EmptyString => []
  | String c s' => String c EmptyString :: split_chars s'
  end.

(** Converts a position in the Prosemirror doc to an offset in the CRDT
    content string (one paragraph node wraps the text). *)
Definition contentPosFromProsemirrorPos (position : Z) : Z := position - 1.

(** [!attrs || typeof attrs[key] !== "string"], negated: the attribute bag
    exists and holds a string under [key]. *)
Definition hasStringAttr (attrs : option Attrs) (key : string) : bool :=
  match attrs with
  | None => false
  | Some a => typeof_is_string (a !! key)
  end.

(** Modelled from the spec: the helper [unreachable], called after the
    switch of [applyPatchToTransaction], is not defined in bridge.ts.  An
    exhaustiveness failure on a patch variant aborts the application of the
    current change; it does not return. *)
Definition unreachable {A : Type} (patch : Patch) : outcome A :=
  Throws (Unreachable (action patch)).

Section Bridge.
Context {marks_schema : MarkSchema} {engine : Engine} {editor : ProseMirror}.

(** *** Remote patches: [applyPatchToTransaction] *)

Definition applyPatchToTransaction (transaction : Transaction) (patch : Patch)
  : outcome Transaction :=
  if String.eqb (action patch) "insert" then
    let index := patch_index patch + 1 in
    text ← schema_text (patch_values patch !! 0%nat) [];
    tr_replace transaction index index (new_Slice (Fragment_from text) 0 0)
  else if String.eqb (action patch) "delete" then
    let index := patch_index patch + 1 in
    tr_replace transaction index (index + patch_count patch) Slice_empty
  else if String.eqb (action patch) "makeList" then
    if (length (patch_path patch) =? 0)%nat
       && String.eqb (patch_key patch) contentKey
    then tr_replace transaction 0 (tr_doc_content_size transaction) Slice_empty
    else Returns transaction
  else if String.eqb (action patch) "addMark" then
    tr_addMark transaction (patch_start patch + 1) (patch_end patch + 1 + 1)
      (schema_mark (patch_markType patch) (patch_attrs patch))
  else if String.eqb (action patch) "removeMark" then
    tr_removeMark transaction (patch_start patch + 1) (patch_end patch + 1 + 1)
      (schema_mark (patch_markType patch) (patch_attrs patch))
  else unreachable patch.

(** *** Initial projection: [prosemirrorDocFromCRDT]

    Here at the plain constructors [schema_node], [schema_text] and
    [schema_mark]; the function over any schema is
    [Projection.prosemirrorDocFromCRDT] below. *)

(** One turn of the loop over [ALL_MARKS] in the callback given to
    [spans.map]; [marks] is the array filled by [marks.push]. *)
Definition pushMarksOfType (span : FormatSpanWithText) (marks : list Mark)
    (markType : string) : list Mark :=
  match span_marks span !! markType with
  | None => marks
  | Some (MarkValueList markValue) =>
      fold_left (fun marks value => marks ++ [schema_mark markType (Some value)])
        markValue marks
  | Some (MarkValueSingle markValue) =>
      if truthy (markValue !! "active")
      then marks ++ [schema_mark markType (Some markValue)]
      else marks
  end.

Definition spanMarks (span : FormatSpanWithText) : list Mark :=
  fold_left (pushMarksOfType span) ALL_MARKS [].

Definition spanTextNode (span : FormatSpanWithText) : outcome Node :=
  schema_text (Some (span_text span)) (spanMarks span).

Fixpoint mapSpans (spans : list FormatSpanWithText) : outcome (list Node) :=
  match spans with
  | [] => Returns []
  | span :: rest =>
      node ← spanTextNode span;
      nodes ← mapSpans rest;
      Returns (node :: nodes)
  end.

Definition prosemirrorDocFromCRDT (spans : list FormatSpanWithText) : outcome Node :=
  let general :=
    nodes ← mapSpans spans;
    Returns (schema_node "doc" [schema_node "paragraph" nodes]) in
  match spans with
  | [span] =>
      if String.eqb (span_text span) ""
      then Returns (schema_node "doc" [schema_node "paragraph" []])
      else general
  | _ => general
  end.

(** *** Local edits: [applyTransaction] *)

(** The body of the loop over [txn.steps]; [operations] is the array the
    loop pushes to. *)
Definition stepOperations (operations : list InputOperation) (step : Step)
  : outcome (list InputOperation) :=
  match step with
  | ReplaceStep from to (Some slice) =>
      let operations :=
        if negb (from =? to)
        then operations ++
               [OpDelete [contentKey] (contentPosFromProsemirrorPos from) (to - from)]
        else operations in
      let insertedContent := textBetween_all (slice_content slice) in
      Returns (operations ++
                 [OpInsert [contentKey] (contentPosFromProsemirrorPos from)
                    (split_chars insertedContent)])
  | ReplaceStep from to None =>
      Returns (operations ++
                 [OpDelete [contentKey] (contentPosFromProsemirrorPos from) (to - from)])
  | AddMarkStep from to mark =>
      if negb (isMarkType (mark_type_name mark))
      then Throws (InvalidMarkType (mark_type_name mark))
      else
        let start := contentPosFromProsemirrorPos from in
        let end_ := contentPosFromProsemirrorPos (to - 1) in
        if String.eqb (mark_type_name mark) "comment" then
          if negb (hasStringAttr (mark_attrs mark) "id")
          then Throws ExpectedCommentId
          else Returns (operations ++
                 [OpAddMark [contentKey] start end_ (mark_type_name mark) (mark_attrs mark)])
        else if String.eqb (mark_type_name mark) "link" then
          if negb (hasStringAttr (mark_attrs mark) "url")
          then Throws ExpectedLinkUrl
          else Returns (operations ++
                 [OpAddMark [contentKey] start end_ (mark_type_name mark) (mark_attrs mark)])
        else Returns (operations ++
                 [OpAddMark [contentKey] start end_ (mark_type_name mark) None])
  | RemoveMarkStep from to mark =>
      if negb (isMarkType (mark_type_name mark))
      then Throws (InvalidMarkType (mark_type_name mark))
      else
        let start := contentPosFromProsemirrorPos from in
        let end_ := contentPosFromProsemirrorPos (to - 1) in
        if String.eqb (mark_type_name mark) "comment" then
          if negb (hasStringAttr (mark_attrs mark) "id")
          then Throws ExpectedCommentId
          else Returns (operations ++
                 [OpRemoveMark [contentKey] start end_ (mark_type_name mark) (mark_attrs mark)])
        else Returns (operations ++
                 [OpRemoveMark [contentKey] start end_ (mark_type_name mark) None])
  | OtherStep => Returns operations
  end.

Fixpoint forSteps (operations : list InputOperation) (steps : list Step)
  : outcome (list InputOperation) :=
  match steps with
  | [] => Returns operations
  | step :: rest =>
      operations' ← stepOperations operations step;
      forSteps operations' rest
  end.

(** The mutable objects shared by the editor callbacks, with a log of the
    calls made on the engine and on the view.  Console and debug output is
    left out. *)
Inductive Call : Type :=
| CallChange (operations : list InputOperation)
| CallApplyChange (change : Change)
| CallUpdateState (state : EditorState).

Record World : Type := mkWorld {
  w_doc : Micromerge;
  w_view_state : EditorState;
  w_calls : list Call
}.

Definition applyTransaction (w : World) (txn : Transaction)
  : outcome (option Change) * World :=
  match forSteps [] (tr_steps txn) with
  | Throws e => (Throws e, w)
  | Returns operations =>
      if (0 <? length operations)%nat then
        let (r, doc') := doc_change (w_doc w) operations in
        (change ← r; Returns (Some change),
         mkWorld doc' (w_view_state w) (w_calls w ++ [CallChange operations]))
      else (Returns None, w)
  end.

(** *** Incoming changes: the handler given to [publisher.subscribe] *)

Fixpoint forPatches (transaction : Transaction) (patches : list Patch)
  : outcome Transaction :=
  match patches with
  | [] => Returns transaction
  | patch :: rest =>
      transaction' ← applyPatchToTransaction transaction patch;
      forPatches transaction' rest
  end.

Fixpoint forChanges (w : World) (state : EditorState) (incomingChanges : list Change)
  : outcome EditorState * World :=
  match incomingChanges with
  | [] => (Returns state, w)
  | change :: rest =>
      let transaction := state_tr state in
      let (r, doc') := doc_applyChange (w_doc w) change in
      let w' := mkWorld doc' (w_view_state w) (w_calls w ++ [CallApplyChange change]) in
      match r with
      | Throws e => (Throws e, w')
      | Returns patches =>
          match forPatches transaction patches with
          | Throws e => (Throws e, w')
          | Returns transaction =>
              match state_apply state transaction with
              | Throws e => (Throws e, w')
              | Returns state' => forChanges w' state' rest
              end
          end
      end
  end.

Definition subscribeHandler (w : World) (incomingChanges : list Change)
  : outcome unit * World :=
  if (length incomingChanges =? 0)%nat then (Returns tt, w)
  else
    let state := w_view_state w in
    match forChanges w state incomingChanges with
    | (Throws e, w') => (Throws e, w')
    | (Returns state', w') =>
        (Returns tt,
         mkWorld (w_doc w') state' (w_calls w' ++ [CallUpdateState state']))
    end.

End Bridge.

(** ** Reading aids for the statements below *)

(** The editor call that answers a patch of one of the five handled
    variants. *)
Definition handledPatchCall {engine : Engine} {editor : ProseMirror}
    (transaction : Transaction) (patch : Patch) : outcome Transaction :=
  if String.eqb (action patch) "insert" then
    text ← schema_text (patch_values patch !! 0%nat) [];
    tr_replace transaction (patch_index patch + 1) (patch_index patch + 1)
      (new_Slice [text] 0 0)
  else if String.eqb (action patch) "delete" then
    tr_replace transaction (patch_index patch + 1)
      (patch_index patch + 1 + patch_count patch) Slice_empty
  else if String.eqb (action patch) "makeList" then
    if bool_decide (patch_path patch = [] /\ patch_key patch = contentKey)
    then tr_replace transaction 0 (tr_doc_content_size transaction) Slice_empty
    else Returns transaction
  else if String.eqb (action patch) "addMark" then
    tr_addMark transaction (patch_start patch + 1) (patch_end patch + 2)
      (schema_mark (patch_markType patch) (patch_attrs patch))
  else
    tr_removeMark transaction (patch_start patch + 1) (patch_end patch + 2)
      (schema_mark (patch_markType patch) (patch_attrs patch)).

(** The mark steps that the compiler refuses: an unknown mark kind; a comment
    without a string [id]; when adding, a link without a string [url]. *)
Definition rejectedMarkStep {marks_schema : MarkSchema} (step : Step) : bool :=
  match step with
  | AddMarkStep _ _ mark =>
      negb (isMarkType (mark_type_name mark))
      || (if String.eqb (mark_type_name mark) "comment"
          then negb (hasStringAttr (mark_attrs mark) "id")
          else if String.eqb (mark_type_name mark) "link"
          then negb (hasStringAttr (mark_attrs mark) "url")
          else false)
  | RemoveMarkStep _ _ mark =>
      negb (isMarkType (mark_type_name mark))
      || (if String.eqb (mark_type_name mark) "comment"
          then negb (hasStringAttr (mark_attrs mark) "id")
          else false)
  | ReplaceStep _ _ _ | OtherStep => false
  end.

(** ** Reference collaborators

    Small implementations of the three interfaces, used to run the bridge on
    concrete documents. *)

(** The mark kinds bound in the keymap of bridge.ts. *)
Definition peritextMarks : MarkSchema := {|
  ALL_MARKS := ["strong"; "em"; "comment"; "link"];
  isMarkType := fun name =>
    existsb (String.eqb name) ["strong"; "em"; "comment"; "link"]
|}.

(** An engine that keeps the changes it has seen.  A change is the list of
    operations it was made from, and is reported back as patches in flat
    coordinates, one insert patch per character. *)
Fixpoint insertPatches (path : OperationPath) (index : Z) (values : list string)
  : list Patch :=
  match values with
  | [] => []
  | value :: rest =>
      insertPatch path index [value] :: insertPatches path (index + 1) rest
  end.

Definition patchesOfOperation (op : InputOperation) : list Patch :=
  match op with
  | OpInsert path index values => insertPatches path index values
  | OpDelete path index count => [deletePatch path index count]
  | OpAddMark path start end_ markType attrs =>
      [addMarkPatch path start end_ markType attrs]
  | OpRemoveMark path start end_ markType attrs =>
      [removeMarkPatch path start end_ markType attrs]
  | OpMakeList path key => [makeListPatch path key]
  end.

Definition historyEngine : Engine := {|
  Micromerge := list (list InputOperation);
  Change := list InputOperation;
  contentKey := "text";
  doc_change := fun doc operations => (Returns operations, doc ++ [operations]);
  doc_applyChange := fun doc change =>
    (Returns (flat_map patchesOfOperation change), doc ++ [change])
|}.

(** An editor for documents of one paragraph of unformatted text.  Position 0
    is before the paragraph, positions 1 .. n + 1 are the gaps around its n
    characters, and the content of the document has size n + 2.  Mark steps
    are recorded and leave the text as it is. *)
Record PlainTransaction : Type := mkPlain {
  plain_text : string;
  plain_steps : list Step
}.

Definition plainReplace (tr : PlainTransaction) (from to : Z) (slice : Slice)
  : outcome PlainTransaction :=
  let text := plain_text tr in
  let n := Z.of_nat (String.length text) in
  let inserted := textBetween_all (slice_content slice) in
  let steps := plain_steps tr ++ [ReplaceStep from to (Some slice)] in
  if (1 <=? from) && (from <=? to) && (to <=? n + 1) then
    Returns (mkPlain
      (String.substring 0 (Z.to_nat (from - 1)) text +:+ inserted +:+
       String.substring (Z.to_nat (to - 1)) (String.length text - Z.to_nat (to - 1)) text)
      steps)
  else if (from =? 0) && (to =? n + 2) then Returns (mkPlain inserted steps)
  else Throws (ExternalError "RangeError").

Definition plainEditor : ProseMirror := {|
  Transaction := PlainTransaction;
  EditorState := string;
  tr_replace := plainReplace;
  tr_addMark := fun tr from to mark =>
    Returns (mkPlain (plain_text tr) (plain_steps tr ++ [AddMarkStep from to mark]));
  tr_removeMark := fun tr from to mark =>
    Returns (mkPlain (plain_text tr) (plain_steps tr ++ [RemoveMarkStep from to mark]));
  tr_doc_content_size := fun tr => Z.of_nat (String.length (plain_text tr)) + 2;
  tr_steps := plain_steps;
  state_tr := fun state => mkPlain state [];
  state_apply := fun _ tr => Returns (plain_text tr)
|}.

(** Sample data for the runs at the end of the file. *)
Definition urlAttrs : Attrs := {[ "url" := JsString "https://example.org" ]}.
Definition activeFlag (b : bool) : Attrs := {[ "active" := JsBoolean b ]}.
Definition commentId (id : string) : Attrs := {[ "id" := JsString id ]}.
Definition textSlice (text : string) : Slice :=
  new_Slice (Fragment_from (TextNode text [])) 0 0.
Definition docLo : PlainTransaction := mkPlain "lo" [].
Definition freshWorld (text : string) : @World historyEngine plainEditor :=
  @mkWorld historyEngine plainEditor [] text [].
Definition sampleSpan : FormatSpanWithText :=
  mkSpan "hi"
    {[ "comment" := MarkValueList [commentId "a"; commentId "b"];
       "em" := MarkValueSingle (activeFlag false);
       "strong" := MarkValueSingle (activeFlag true) ]}.

(** ** The rest of bridge.ts: start-up, key bindings, local dispatch *)

(** prosemirror-state: the first range of the selection of an editor state,
    [state.selection.ranges[0]], as the positions of its two ends. *)
Class EditorSelection (editor : ProseMirror) : Type := {
  selection_from : EditorState -> Z;
  selection_to : EditorState -> Z
}.

Section Editor.
Context {marks_schema : MarkSchema} {engine : Engine} {editor : ProseMirror}
  {selection : EditorSelection editor}.

(** *** [initializeDocs] *)

Definition initialValue : string := "This is the Peritext editor".

(** The two operations of the initial change. *)
Definition initialOperations : list InputOperation :=
  [OpMakeList [] contentKey;
   OpInsert [contentKey] 0 (split_chars initialValue)].

(** The loop over [docs.slice(1)].  The documents are distinct objects; the
    list holds the state of each, and the result the states afterwards. *)
Fixpoint applyToDocs (initialChange : Change) (docs : list Micromerge)
  : outcome unit * list Micromerge :=
  match docs with
  | [] => (Returns tt, [])
  | doc :: rest =>
      let (r, doc') := doc_applyChange doc initialChange in
      match r with
      | Throws e => (Throws e, doc' :: rest)
      | Returns _ =>
          let (r', rest') := applyToDocs initialChange rest in
          (r', doc' :: rest')
      end
  end.

(** [docs[0]] of an empty array is undefined, and the call of its [change]
    method is a TypeError. *)
Definition initializeDocs (docs : list Micromerge) : outcome unit * list Micromerge :=
  match docs with
  | [] => (Throws (ExternalError "TypeError"), [])
  | doc0 :: rest =>
      let (r, doc0') := doc_change doc0 initialOperations in
      match r with
      | Throws e => (Throws e, doc0' :: rest)
      | Returns initialChange =>
          let (r', rest') := applyToDocs initialChange rest in
          (r', doc0' :: rest')
      end
  end.

(** *** [dispatchTransaction], the callback of the view *)

(** The world of one editor: the shared objects of [World], and the changes
    handed to [queue.enqueue] so far, in call order. *)
Record EditorWorld : Type := mkEditorWorld {
  e_world : World;
  e_enqueued : list Change
}.

Definition dispatchTransaction (ew : EditorWorld) (txn : Transaction)
  : outcome unit * EditorWorld :=
  let w := e_world ew in
  match state_apply (w_view_state w) txn with
  | Throws e => (Throws e, ew)
  | Returns state =>
      let (r, w') := applyTransaction w txn in
      match r with
      | Throws e => (Throws e, mkEditorWorld w' (e_enqueued ew))
      | Returns change =>
          let enqueued :=
            match change with
            | Some change => e_enqueued ew ++ [change]
            | None => e_enqueued ew
            end in
          (Returns tt,
           mkEditorWorld
             (mkWorld (w_doc w') state (w_calls w' ++ [CallUpdateState state]))
             enqueued)
      end
  end.

(** *** The command factory [addMark] and the key bindings that use it *)

(** The command made by [addMark({markType, makeAttrs})], run on [state]
    with the callback [dispatch], which may be undefined.  [S] is whatever
    the callback works on. *)
Definition addMark {S : Type} (markType : string) (makeAttrs : unit -> Attrs)
    (state : EditorState)
    (dispatch : option (Transaction -> S -> outcome unit * S)) (s : S)
  : outcome bool * S :=
  let tr := state_tr state in
  let from := selection_from state in
  let to := selection_to state in
  match tr_addMark tr from to (schema_mark markType (Some (makeAttrs tt))) with
  | Throws e => (Throws e, s)
  | Returns tr =>
      match dispatch with
      | Some dispatch =>
          let (r, s') := dispatch tr s in
          (_ ← r; Returns true, s')
      | None => (Returns true, s)
      end
  end.

(** "Mod-e" and "Mod-k" of [richTextKeymap]; [uuid] is what the call of
    [uuid()] in [makeAttrs] gives. *)
Definition keymap_Mod_e {S : Type} (uuid : string) :=
  @addMark S "comment" (fun _ => {[ "id" := JsString uuid ]}).

Definition keymap_Mod_k {S : Type} (uuid : string) :=
  @addMark S "link"
    (fun _ => {[ "url" := JsString ("https://www.google.com/search?q=" +:+ uuid) ]}).

End Editor.

(** The selection of the one-paragraph editor: the whole text. *)
Definition plainSelection : EditorSelection plainEditor :=
  Build_EditorSelection plainEditor
    (fun _ : string => 1)
    (fun state : string => Z.of_nat (String.length state) + 1).

Definition freshEditorWorld (text : string) : @EditorWorld historyEngine plainEditor :=
  @mkEditorWorld historyEngine plainEditor (freshWorld text) [].

(** Reading aids for the later statements. *)

(** A step of a class that [applyTransaction] has no branch for. *)
Definition isOtherStep (step : Step) : bool :=
  match step with
  | OtherStep => true
  | _ => false
  end.

Definition operationPath (op : InputOperation) : OperationPath :=
  match op with
  | OpInsert path _ _ | OpDelete path _ _ | OpAddMark path _ _ _ _
  | OpRemoveMark path _ _ _ _ | OpMakeList path _ => path
  end.

Definition isMakeList (op : InputOperation) : bool :=
  match op with
  | OpMakeList _ _ => true
  | _ => false
  end.

(** The attributes that the operation of a mark step carries. *)
Definition addMarkAttrs (mark : Mark) : option Attrs :=
  if String.eqb (mark_type_name mark) "comment" then mark_attrs mark
  else if String.eqb (mark_type_name mark) "link" then mark_attrs mark
  else None.

Definition removeMarkAttrs (mark : Mark) : option Attrs :=
  if String.eqb (mark_type_name mark) "comment" then mark_attrs mark else None.

(** An engine that hands the patches of a change through as they are: a
    change is a list of patches.  It stands for a peer whose changes hold
    patch variants of any kind. *)
Definition relayEngine : Engine := {|
  Micromerge := nat;
  Change := list Patch;
  contentKey := "text";
  doc_change := fun doc operations =>
    (Returns (flat_map patchesOfOperation operations), S doc);
  doc_applyChange := fun doc change => (Returns change, S doc)
|}.

Definition setPatch : Patch := mkPatch "set" [] 0 [] 0 "" 0 0 "" None.
Definition setChange : list Patch := [insertPatch ["text"] 0 ["h"]; setPatch].
Definition relayWorld (doc : nat) (calls : list (@Call relayEngine plainEditor))
  : @World relayEngine plainEditor :=
  @mkWorld relayEngine plainEditor doc "lo" calls.

(** ** The initial projection over any schema

    [prosemirrorDocFromCRDT] receives its schema as an argument.  Here the
    schema is any object with the three methods the function calls, each of
    which may throw; nothing is assumed about what they build. *)

Module Projection.

(** The [attrs] argument at the two call sites of [schema.node]:
    [undefined], and the empty array of [schema.node("paragraph", [])]. *)
Inductive NodeAttrs : Type :=
| AttrsUndefined
| AttrsEmptyArray.

Record DocSchema : Type := mkDocSchema {
  node : string -> NodeAttrs -> option Fragment -> outcome Node;
  text : string -> list Mark -> outcome Node;
  mark : string -> Attrs -> outcome Mark
}.

Section Builder.
Context {marks_schema : MarkSchema} (schema : DocSchema).

(** [for (const value of markValue) marks.push(schema.mark(markType, value))] *)
Fixpoint pushMarkValues (markType : string) (marks : list Mark)
    (markValue : list Attrs) : outcome (list Mark) :=
  match markValue with
  | [] => Returns marks
  | value :: rest =>
      m ← mark schema markType value;
      pushMarkValues markType (marks ++ [m]) rest
  end.

(** One turn of the loop over [ALL_MARKS]. *)
Definition pushMarksOfType (span : FormatSpanWithText) (marks : list Mark)
    (markType : string) : outcome (list Mark) :=
  match span_marks span !! markType with
  | None => Returns marks
  | Some (MarkValueList markValue) => pushMarkValues markType marks markValue
  | Some (MarkValueSingle markValue) =>
      if truthy (markValue !! "active")
      then m ← mark schema markType markValue; Returns (marks ++ [m])
      else Returns marks
  end.

Fixpoint forMarkTypes (span : FormatSpanWithText) (marks : list Mark)
    (markTypes : list string) : outcome (list Mark) :=
  match markTypes with
  | [] => Returns marks
  | markType :: rest =>
      marks' ← pushMarksOfType span marks markType;
      forMarkTypes span marks' rest
  end.

(** The callback given to [spans.map]. *)
Definition spanNode (span : FormatSpanWithText) : outcome Node :=
  marks ← forMarkTypes span [] ALL_MARKS;
  text schema (span_text span) marks.

Fixpoint mapSpans (spans : list FormatSpanWithText) : outcome (list Node) :=
  match spans with
  | [] => Returns []
  | span :: rest =>
      n ← spanNode span;
      nodes ← mapSpans rest;
      Returns (n :: nodes)
  end.

Definition prosemirrorDocFromCRDT (spans : list FormatSpanWithText) : outcome Node :=
  let general :=
    nodes ← mapSpans spans;
    paragraph ← node schema "paragraph" AttrsUndefined (Some nodes);
    node schema "doc" AttrsUndefined (Some [paragraph]) in
  match spans with
  | [span] =>
      if String.eqb (span_text span) ""
      then
        paragraph ← node schema "paragraph" AttrsEmptyArray None;
        node schema "doc" AttrsUndefined (Some [paragraph])
      else general
  | _ => general
  end.

End Builder.

End Projection.

(** The schema of plain constructors: [prosemirrorDocFromCRDT] above is
    [Projection.prosemirrorDocFromCRDT] at this schema. *)
Definition plainSchema : Projection.DocSchema := {|
  Projection.node := fun name _ content => Returns (schema_node name (default [] content));
  Projection.text := fun text marks => schema_text (Some text) marks;
  Projection.mark := fun markType value => Returns (schema_mark markType (Some value))
|}.

(** The calls of [schema.mark] that a span asks for, as pairs of a kind and
    a value: kind by kind in the order of [ALL_MARKS]; under a kind with a
    list value one call per entry of the list, in list order; under a kind
    with a single value one call when its [active] flag is set; none under
    a kind that the span does not hold. *)
Definition markRequests {marks_schema : MarkSchema} (span : FormatSpanWithText)
  : list (string * Attrs) :=
  flat_map
    (fun markType =>
       match span_marks span !! markType with
       | None => []
       | Some (MarkValueList entries) => map (fun entry => (markType, entry)) entries
       | Some (MarkValueSingle value) =>
           if truthy (value !! "active") then [(markType, value)] else []
       end)
    ALL_MARKS.

(** The single span without text, for which no text node is asked. *)
Definition isEmptyDocument (spans : list FormatSpanWithText) : bool :=
  match spans with
  | [span] => String.eqb (span_text span) ""
  | _ => false
  end.

(** Marks and values can be compared. *)
#[global] Instance JsValue_eq_dec : EqDecision JsValue.
Proof. solve_decision. Defined.

#[global] Instance Mark_eq_dec : EqDecision Mark.
Proof. solve_decision. Defined.

(** A schema like the one of ./schema, for runs: the marks strong and em
    without attributes, comment with a required [id], link with a required
    [url]; marks kept in this order on a text node; a paragraph of text
    nodes; a document of paragraphs.  It builds as the library does: a mark
    keeps its declared attributes only, a kind outside the schema or a
    missing attribute is an error, the marks of a text node are sorted by
    the rank of their kind, and neighbouring text nodes with the same marks
    are joined. *)
Definition declaredAttrs (markType : string) : option (list string) :=
  if String.eqb markType "strong" then Some []
  else if String.eqb markType "em" then Some []
  else if String.eqb markType "comment" then Some ["id"]
  else if String.eqb markType "link" then Some ["url"]
  else None.

Definition markRank (markType : string) : nat :=
  if String.eqb markType "strong" then 0
  else if String.eqb markType "em" then 1
  else if String.eqb markType "comment" then 2
  else 3.

Fixpoint computeAttrs (names : list string) (given : Attrs) : outcome Attrs :=
  match names with
  | [] => Returns ∅
  | name :: rest =>
      match given !! name with
      | None | Some JsUndefined => Throws (ExternalError "RangeError")
      | Some value =>
          attrs ← computeAttrs rest given;
          Returns (<[name := value]> attrs)
      end
  end.

Definition referenceMark (markType : string) (given : Attrs) : outcome Mark :=
  match declaredAttrs markType with
  | None => Throws (ExternalError "RangeError")
  | Some names =>
      attrs ← computeAttrs names given;
      Returns (mkMark markType (Some attrs))
  end.

(** [Mark.setFrom]: a stable sort by rank. *)
Fixpoint insertByRank (m : Mark) (sorted : list Mark) : list Mark :=
  match sorted with
  | [] => [m]
  | m' :: rest =>
      if (markRank (mark_type_name m) <=? markRank (mark_type_name m'))%nat
      then m :: m' :: rest
      else m' :: insertByRank m rest
  end.

Definition setFrom (marks : list Mark) : list Mark :=
  fold_right insertByRank [] marks.

(** [Fragment.fromArray]: text nodes that follow each other with the same
    marks become one. *)
Fixpoint fromArray (nodes : list Node) : list Node :=
  match nodes with
  | [] => []
  | n :: rest =>
      match n, fromArray rest with
      | TextNode t1 m1, TextNode t2 m2 :: rest' =>
          if decide (m1 = m2) then TextNode (t1 +:+ t2) m1 :: rest'
          else n :: TextNode t2 m2 :: rest'
      | _, joined => n :: joined
      end
  end.

Definition isTextNode (n : Node) : bool :=
  match n with
  | TextNode _ _ => true
  | ElementNode _ _ => false
  end.

Definition isParagraph (n : Node) : bool :=
  match n with
  | ElementNode name _ => String.eqb name "paragraph"
  | TextNode _ _ => false
  end.

Definition referenceNode (name : string) (attrs : Projection.NodeAttrs)
    (content : option Fragment) : outcome Node :=
  let content := fromArray (default [] content) in
  if String.eqb name "paragraph" then
    if forallb isTextNode content then Returns (ElementNode name content)
    else Throws (ExternalError "RangeError")
  else if String.eqb name "doc" then
    if forallb isParagraph content && negb (length content =? 0)%nat
    then Returns (ElementNode name content)
    else Throws (ExternalError "RangeError")
  else Throws (ExternalError "RangeError").

Definition referenceSchema : Projection.DocSchema := {|
  Projection.node := referenceNode;
  Projection.text := fun text marks => schema_text (Some text) (setFrom marks);
  Projection.mark := referenceMark
|}.

(** A second span, "!", carrying an active link. *)
Definition linkSpan : FormatSpanWithText :=
  mkSpan "!"
    {[ "link" := MarkValueSingle
                   {[ "active" := JsBoolean true; "url" := JsString "u" ]} ]}.

(** * Properties *)

Section BridgeFacts.
Context {marks_schema : MarkSchema} {engine : Engine} {editor : ProseMirror}.

(** ** The loop over the steps of a transaction *)

(** A step only appends to [operations]: what it appends does not depend
    on what the array already holds. *)
Lemma stepOperations_app (operations : list InputOperation) (step : Step) :
  stepOperations operations step =
  (emitted ← stepOperations [] step; Returns (operations ++ emitted)).
Proof.
  destruct step as [from to [slice|]|from to mark|from to mark|]; simpl.
  - destruct (negb (from =? to)); simpl; by rewrite <- ?app_assoc.
  - done.
  - destruct (negb (isMarkType (mark_type_name mark))); [done|].
    destruct (String.eqb (mark_type_name mark) "comment").
    { by destruct (negb (hasStringAttr (mark_attrs mark) "id")). }
    destruct (String.eqb (mark_type_name mark) "link"); [|done].
    by destruct (negb (hasStringAttr (mark_attrs mark) "url")).
  - destruct (negb (isMarkType (mark_type_name mark))); [done|].
    destruct (String.eqb (mark_type_name mark) "comment"); [|done].
    by destruct (negb (hasStringAttr (mark_attrs mark) "id")).
  - by rewrite app_nil_r.
Qed.

Lemma forSteps_app (operations : list InputOperation) (steps : list Step) :
  forSteps operations steps =
  (emitted ← forSteps [] steps; Returns (operations ++ emitted)).
Proof.
  revert operations. induction steps as [|step rest IH]; intros operations; simpl.
  - by rewrite app_nil_r.
  - rewrite (stepOperations_app operations step).
    destruct (stepOperations [] step) as [emitted|e]; simpl; [|done].
    rewrite (IH (operations ++ emitted)), (IH emitted).
    destruct (forSteps [] rest) as [more|e]; simpl; [|done].
    by rewrite app_assoc.
Qed.

(** The operations of a transaction are those of its steps, step by step. *)
Lemma forSteps_concat (steps : list Step) (operations : list InputOperation) :
  forSteps [] steps = Returns operations ->
  exists perStep : list (list InputOperation),
    Forall2 (fun step emitted => stepOperations [] step = Returns emitted) steps perStep
    /\ operations = concat perStep.
Proof.
  revert operations. induction steps as [|step rest IH]; intros operations; simpl.
  - intros [= <-]. exists []. split; [constructor|done].
  - destruct (stepOperations [] step) as [emitted|e] eqn:Hstep; simpl; [|done].
    rewrite forSteps_app.
    destruct (forSteps [] rest) as [more|e] eqn:Hrest; simpl; [|done].
    intros [= <-]. destruct (IH more eq_refl) as (perStep & Hall & ->).
    exists (emitted :: perStep). split; [by constructor|done].
Qed.

(** A step that throws aborts the whole loop, wherever it stands. *)
Lemma forSteps_throws (steps : list Step) (step : Step)
    (operations : list InputOperation) :
  In step steps ->
  (exists e, stepOperations [] step = Throws e) ->
  exists e, forSteps operations steps = Throws e.
Proof.
  revert operations. induction steps as [|s rest IH]; intros operations Hin Hthrow.
  - destruct Hin.
  - simpl. rewrite stepOperations_app.
    destruct Hin as [->|Hin].
    + destruct Hthrow as [e ->]. by exists e.
    + destruct (stepOperations [] s) as [emitted|e]; simpl; [|by exists e].
      by apply IH.
Qed.

(** ** Mark ranges: tree positions and flat indices *)

(** What a mark step compiles to, whenever its mark passes the checks:
    one operation over the flat range [from - 1 .. (to - 1) - 1]. *)
Lemma addMarkStep_operation (operations : list InputOperation) (from to : Z)
    (mark : Mark) :
  isMarkType (mark_type_name mark) = true ->
  (mark_type_name mark = "comment" -> hasStringAttr (mark_attrs mark) "id" = true) ->
  (mark_type_name mark = "link" -> hasStringAttr (mark_attrs mark) "url" = true) ->
  exists attrs,
    stepOperations operations (AddMarkStep from to mark) =
    Returns (operations ++
      [OpAddMark [contentKey] (from - 1) (to - 1 - 1) (mark_type_name mark) attrs]).
Proof.
  intros Hkind Hid Hurl. simpl. rewrite Hkind. simpl.
  unfold contentPosFromProsemirrorPos.
  destruct (String.eqb_spec (mark_type_name mark) "comment") as [Hc|_].
  { rewrite (Hid Hc). simpl. by eexists. }
  destruct (String.eqb_spec (mark_type_name mark) "link") as [Hl|_].
  { rewrite (Hurl Hl). simpl. by eexists. }
  by eexists.
Qed.

Lemma removeMarkStep_operation (operations : list InputOperation) (from to : Z)
    (mark : Mark) :
  isMarkType (mark_type_name mark) = true ->
  (mark_type_name mark = "comment" -> hasStringAttr (mark_attrs mark) "id" = true) ->
  exists attrs,
    stepOperations operations (RemoveMarkStep from to mark) =
    Returns (operations ++
      [OpRemoveMark [contentKey] (from - 1) (to - 1 - 1) (mark_type_name mark) attrs]).
Proof.
  intros Hkind Hid. simpl. rewrite Hkind. simpl.
  unfold contentPosFromProsemirrorPos.
  destruct (String.eqb_spec (mark_type_name mark) "comment") as [Hc|_].
  { rewrite (Hid Hc). simpl. by eexists. }
  by eexists.
Qed.

Lemma addMarkStep_shape (operations result : list InputOperation) (from to : Z)
    (mark : Mark) :
  stepOperations operations (AddMarkStep from to mark) = Returns result ->
  exists attrs,
    result = operations ++
      [OpAddMark [contentKey] (from - 1) (to - 1 - 1) (mark_type_name mark) attrs].
Proof.
  simpl. unfold contentPosFromProsemirrorPos.
  destruct (isMarkType (mark_type_name mark)); simpl; [|done].
  destruct (String.eqb (mark_type_name mark) "comment").
  { destruct (hasStringAttr (mark_attrs mark) "id"); simpl; [|done].
    intros [= <-]. by eexists. }
  destruct (String.eqb (mark_type_name mark) "link").
  { destruct (hasStringAttr (mark_attrs mark) "url"); simpl; [|done].
    intros [= <-]. by eexists. }
  intros [= <-]. by eexists.
Qed.

Lemma removeMarkStep_shape (operations result : list InputOperation) (from to : Z)
    (mark : Mark) :
  stepOperations operations (RemoveMarkStep from to mark) = Returns result ->
  exists attrs,
    result = operations ++
      [OpRemoveMark [contentKey] (from - 1) (to - 1 - 1) (mark_type_name mark) attrs].
Proof.
  simpl. unfold contentPosFromProsemirrorPos.
  destruct (isMarkType (mark_type_name mark)); simpl; [|done].
  destruct (String.eqb (mark_type_name mark) "comment").
  { destruct (hasStringAttr (mark_attrs mark) "id"); simpl; [|done].
    intros [= <-]. by eexists. }
  intros [= <-]. by eexists.
Qed.

(** C1. Mark ranges are translated with complementary adjustments.  An
    addMark or removeMark patch over the flat range [start .. end_] is
    applied over the tree range [start + 1, end_ + 2); a mark step over the
    tree range [from, to) compiles to the flat range with start [from - 1]
    and inclusive end [(to - 1) - 1].  Hence the tree range of an addMark
    patch, taken back through [contentPosFromProsemirrorPos] as the compiler
    does, gives the start and end of the patch again; and whenever the mark
    of the patch passes the checks of the compiler, the step over that range
    compiles to one operation with exactly these bounds. *)
Theorem mark_range_round_trip (transaction : Transaction)
    (operations : list InputOperation) (path : OperationPath) (start end_ : Z)
    (markType : string) (attrs : option Attrs) :
  let mark := schema_mark markType attrs in
  (* applier: flat to tree *)
  applyPatchToTransaction transaction (addMarkPatch path start end_ markType attrs) =
    tr_addMark transaction (start + 1) (end_ + 2) mark
  /\ applyPatchToTransaction transaction (removeMarkPatch path start end_ markType attrs) =
    tr_removeMark transaction (start + 1) (end_ + 2) mark
  (* compiler: tree to flat *)
  /\ (forall from to result,
        stepOperations operations (AddMarkStep from to mark) = Returns result ->
        exists attrs',
          result = operations ++
            [OpAddMark [contentKey] (from - 1) (to - 1 - 1) markType attrs'])
  /\ (forall from to result,
        stepOperations operations (RemoveMarkStep from to mark) = Returns result ->
        exists attrs',
          result = operations ++
            [OpRemoveMark [contentKey] (from - 1) (to - 1 - 1) markType attrs'])
  (* round trip *)
  /\ contentPosFromProsemirrorPos (start + 1) = start
  /\ contentPosFromProsemirrorPos ((end_ + 2) - 1) = end_
  /\ (isMarkType markType = true ->
      (markType = "comment" -> hasStringAttr attrs "id" = true) ->
      (markType = "link" -> hasStringAttr attrs "url" = true) ->
      exists attrs',
        stepOperations operations (AddMarkStep (start + 1) (end_ + 2) mark) =
        Returns (operations ++ [OpAddMark [contentKey] start end_ markType attrs']))
  /\ (isMarkType markType = true ->
      (markType = "comment" -> hasStringAttr attrs "id" = true) ->
      exists attrs',
        stepOperations operations (RemoveMarkStep (start + 1) (end_ + 2) mark) =
        Returns (operations ++ [OpRemoveMark [contentKey] start end_ markType attrs'])).
Proof.
  intros mark. repeat apply conj.
  - unfold applyPatchToTransaction. simpl.
    by replace (end_ + 1 + 1) with (end_ + 2) by lia.
  - unfold applyPatchToTransaction. simpl.
    by replace (end_ + 1 + 1) with (end_ + 2) by lia.
  - intros from to result. apply addMarkStep_shape.
  - intros from to result. apply removeMarkStep_shape.
  - unfold contentPosFromProsemirrorPos. lia.
  - unfold contentPosFromProsemirrorPos. lia.
  - intros Hkind Hid Hurl.
    destruct (addMarkStep_operation operations (start + 1) (end_ + 2) mark Hkind Hid Hurl)
      as [attrs' Heq].
    exists attrs'.
    replace (start + 1 - 1) with start in Heq by lia.
    by replace (end_ + 2 - 1 - 1) with end_ in Heq by lia.
  - intros Hkind Hid.
    destruct (removeMarkStep_operation operations (start + 1) (end_ + 2) mark Hkind Hid)
      as [attrs' Heq].
    exists attrs'.
    replace (start + 1 - 1) with start in Heq by lia.
    by replace (end_ + 2 - 1 - 1) with end_ in Heq by lia.
Qed.

(** ** Patches *)

(** C6. A makeList patch empties the whole content range of the document
    exactly when its path is empty and its key is the content key of the
    engine; any other makeList patch gives the transaction back as it is. *)
Theorem makeList_reinitializes_root_only (transaction : Transaction)
    (path : OperationPath) (key : string) :
  applyPatchToTransaction transaction (makeListPatch path key) =
  if bool_decide (path = [] /\ key = contentKey)
  then tr_replace transaction 0 (tr_doc_content_size transaction) Slice_empty
  else Returns transaction.
Proof.
  case_bool_decide as Hroot; unfold applyPatchToTransaction; simpl.
  - destruct Hroot as [-> ->]. simpl. by rewrite String.eqb_refl.
  - destruct path as [|p path]; simpl; [|done].
    destruct (String.eqb_spec key contentKey) as [->|Hne]; [|done].
    by destruct Hroot.
Qed.

(** The five handled variants, each with the editor call it ends in. *)
Lemma handled_patch_action (transaction : Transaction) (patch : Patch) :
  In (action patch) handledActions ->
  applyPatchToTransaction transaction patch = handledPatchCall transaction patch.
Proof.
  intros Hin. unfold applyPatchToTransaction, handledPatchCall.
  replace (patch_end patch + 1 + 1) with (patch_end patch + 2) by lia.
  destruct (String.eqb_spec (action patch) "insert"); [done|].
  destruct (String.eqb_spec (action patch) "delete"); [done|].
  destruct (String.eqb_spec (action patch) "makeList").
  { case_bool_decide as Hroot.
    - destruct Hroot as [-> ->]. simpl. by rewrite String.eqb_refl.
    - destruct (patch_path patch) as [|p path]; simpl; [|done].
      destruct (String.eqb_spec (patch_key patch) contentKey) as [Hk|Hne]; [|done].
      by destruct Hroot. }
  destruct (String.eqb_spec (action patch) "addMark"); [done|].
  destruct (String.eqb_spec (action patch) "removeMark"); [done|].
  exfalso. unfold handledActions in Hin. simpl in Hin. intuition congruence.
Qed.

(** C8. The switch has a case for "insert", "delete", "makeList", "addMark"
    and "removeMark", each ending in the editor call of that variant, and no
    default: a patch with any other action falls through to [unreachable],
    which aborts; it is never answered with the unchanged transaction. *)
Theorem unknown_patch_action_aborts (transaction : Transaction) (patch : Patch) :
  ~ In (action patch) handledActions ->
  applyPatchToTransaction transaction patch = Throws (Unreachable (action patch))
  /\ applyPatchToTransaction transaction patch <> Returns transaction
  /\ (forall handled : Patch,
        In (action handled) handledActions ->
        applyPatchToTransaction transaction handled =
        handledPatchCall transaction handled).
Proof.
  intros Hout.
  assert (Heq : applyPatchToTransaction transaction patch =
                Throws (Unreachable (action patch))).
  { unfold applyPatchToTransaction, handledActions in *. simpl in Hout.
    repeat match goal with
    | |- context [String.eqb (action patch) ?a] =>
        destruct (String.eqb_spec (action patch) a) as [Heq|_];
        [exfalso; apply Hout; rewrite Heq; tauto|]
    end.
    done. }
  split; [exact Heq|]. split; [by rewrite Heq|].
  intros handled. apply handled_patch_action.
Qed.

(** C2, as the code has it.  An insert patch is applied at tree position
    [index + 1], over an empty range, and the text put there is the first
    value of the patch alone: [values[0]].  Further values of the patch are
    not read.  With exactly one value the inserted text is the whole given
    text: on the one-paragraph editor, the patches for "h" at flat index 0
    and "i" at flat index 1 turn the tree text "lo" into "hilo". *)
Theorem insert_patch_inserts_first_value (transaction : Transaction)
    (path : OperationPath) (index : Z) (value : string) (rest : list string) :
  value <> "" ->
  applyPatchToTransaction transaction (insertPatch path index (value :: rest)) =
    tr_replace transaction (index + 1) (index + 1)
      (new_Slice (Fragment_from (TextNode value [])) 0 0)
  /\ @forPatches historyEngine plainEditor docLo
       [insertPatch ["text"] 0 ["h"]; insertPatch ["text"] 1 ["i"]] =
     Returns (mkPlain "hilo" [ReplaceStep 1 1 (Some (textSlice "h"));
                              ReplaceStep 2 2 (Some (textSlice "i"))]).
Proof.
  intros Hne. split; [|done]. unfold applyPatchToTransaction. simpl.
  by destruct (String.eqb_spec value "").
Qed.

(** With no value at all, [values[0]] is undefined and the text node
    constructor throws. *)
Lemma insert_patch_without_values (transaction : Transaction)
    (path : OperationPath) (index : Z) :
  applyPatchToTransaction transaction (insertPatch path index []) =
  Throws EmptyTextNode.
Proof. done. Qed.

(** ** Replace steps *)

(** C3. The claim does not hold of the code, by a slip of the code: a pure
    deletion still gives an insert operation.  The step of a deletion has a
    slice, the empty one, so the test [if (step.slice)] sends it to the
    branch marked "handle insertion": after [delete(from - 1, to - from)]
    that branch pushes [insert(from - 1, [])], an insert without values.
    The branch marked "handle deletion", which pushes the delete alone, is
    not reached by it. *)
Theorem pure_deletion_emits_empty_insert (operations : list InputOperation)
    (from to : Z) (slice : Slice) :
  from <> to ->
  textBetween_all (slice_content slice) = "" ->
  stepOperations operations (ReplaceStep from to (Some slice)) =
  Returns (operations ++
    [OpDelete [contentKey] (from - 1) (to - from);
     OpInsert [contentKey] (from - 1) []]).
Proof.
  intros Hne Htext. simpl. unfold contentPosFromProsemirrorPos. rewrite Htext.
  destruct (Z.eqb_spec from to) as [Heq|_]; [done|]. simpl.
  by rewrite <- app_assoc.
Qed.

(** ** Mark steps that are refused *)

Lemma rejected_step_throws (operations : list InputOperation) (step : Step) :
  (exists e, stepOperations operations step = Throws e) <->
  rejectedMarkStep step = true.
Proof.
  destruct step as [from to [slice|]|from to mark|from to mark|]; simpl.
  - split; [intros [e He]; discriminate He|done].
  - split; [intros [e He]; discriminate He|done].
  - destruct (isMarkType (mark_type_name mark)); simpl; [|split; eauto].
    destruct (String.eqb (mark_type_name mark) "comment").
    { destruct (hasStringAttr (mark_attrs mark) "id"); simpl;
        split; eauto; try done; intros [e He]; discriminate He. }
    destruct (String.eqb (mark_type_name mark) "link").
    { destruct (hasStringAttr (mark_attrs mark) "url"); simpl;
        split; eauto; try done; intros [e He]; discriminate He. }
    split; [intros [e He]; discriminate He|done].
  - destruct (isMarkType (mark_type_name mark)); simpl; [|split; eauto].
    destruct (String.eqb (mark_type_name mark) "comment").
    { destruct (hasStringAttr (mark_attrs mark) "id"); simpl;
        split; eauto; try done; intros [e He]; discriminate He. }
    split; [intros [e He]; discriminate He|done].
  - split; [intros [e He]; discriminate He|done].
Qed.

(** C4, as the code has it.  Compiling a mark step fails exactly for the
    steps of [rejectedMarkStep]: an add-mark or remove-mark step of an
    unrecognized mark kind; an add-mark or remove-mark step of kind comment
    whose attributes are absent or hold no string [id]; an add-mark step of
    kind link whose attributes are absent or hold no string [url].  A
    remove-mark step of kind link is compiled without looking at its
    attributes.  One refused step anywhere in a transaction makes
    [applyTransaction] throw, before the engine is called. *)
Theorem mark_step_validation :
  (forall (operations : list InputOperation) (step : Step),
      (exists e, stepOperations operations step = Throws e) <->
      rejectedMarkStep step = true)
  /\ (forall (operations : list InputOperation) (from to : Z) (attrs : option Attrs),
      isMarkType "link" = true ->
      stepOperations operations (RemoveMarkStep from to (mkMark "link" attrs)) =
      Returns (operations ++ [OpRemoveMark [contentKey] (from - 1) (to - 1 - 1) "link" None]))
  /\ (forall (w : World) (txn : Transaction) (step : Step),
      In step (tr_steps txn) ->
      rejectedMarkStep step = true ->
      exists e, applyTransaction w txn = (Throws e, w)).
Proof.
  split; [exact rejected_step_throws|split].
  - intros operations from to attrs Hlink. simpl. by rewrite Hlink.
  - intros w txn step Hin Hrej.
    destruct (forSteps_throws (tr_steps txn) step [] Hin) as [e He].
    { by apply (rejected_step_throws []). }
    exists e. unfold applyTransaction. by rewrite He.
Qed.

(** ** The initial document *)

(** C7. One span with empty text gives the document with a single empty
    paragraph and no text node.  The case is cut short before any text node
    is built: the text node constructor refuses an empty text. *)
Theorem empty_span_gives_empty_paragraph (marks : gmap string MarkMapValue) :
  prosemirrorDocFromCRDT [mkSpan "" marks] =
    Returns (ElementNode "doc" [ElementNode "paragraph" []])
  /\ countTextNodes (ElementNode "doc" [ElementNode "paragraph" []]) = 0%nat
  /\ mapSpans [mkSpan "" marks] = Throws EmptyTextNode.
Proof. repeat split. Qed.

(** ** Local transactions *)

(** C9. When the steps of a transaction produce no operation,
    [applyTransaction] answers null and leaves the engine and the call log
    untouched.  Otherwise it makes exactly one call of [doc.change], with
    all the operations of the transaction: the operations of the first step,
    then those of the second, and so on. *)
Theorem transaction_is_one_change (w : World) (txn : Transaction)
    (operations : list InputOperation) :
  forSteps [] (tr_steps txn) = Returns operations ->
  (exists perStep : list (list InputOperation),
      Forall2 (fun step emitted => stepOperations [] step = Returns emitted)
        (tr_steps txn) perStep
      /\ operations = concat perStep)
  /\ (operations = [] -> applyTransaction w txn = (Returns None, w))
  /\ (operations <> [] ->
      applyTransaction w txn =
      (change ← (doc_change (w_doc w) operations).1; Returns (Some change),
       mkWorld (doc_change (w_doc w) operations).2 (w_view_state w)
         (w_calls w ++ [CallChange operations]))).
Proof.
  intros Hops. split; [by apply forSteps_concat|].
  unfold applyTransaction. rewrite Hops. split.
  - by intros ->.
  - intros Hne. destruct operations as [|op operations]; [done|]. simpl.
    by destruct (doc_change (w_doc w) (op :: operations)).
Qed.

(** ** Incoming changes *)

(** A batch that is not empty starts with a call of [doc.applyChange]. *)
Lemma first_change_is_applied (w : World) (change : Change) (rest : list Change) :
  exists more, w_calls (subscribeHandler w (change :: rest)).2 =
               w_calls w ++ CallApplyChange change :: more.
Proof.
  assert (Hloop : forall changes w0 state, exists more,
    w_calls (forChanges w0 state changes).2 = w_calls w0 ++ more).
  { induction changes as [|c changes IH]; intros w0 state; simpl.
    - exists []. by rewrite app_nil_r.
    - destruct (doc_applyChange (w_doc w0) c) as [[patches|e] doc']; simpl;
        [|by eexists].
      destruct (forPatches (state_tr state) patches) as [tr|e]; simpl; [|by eexists].
      destruct (state_apply state tr) as [state'|e]; simpl; [|by eexists].
      destruct (IH (mkWorld doc' (w_view_state w0)
                      (w_calls w0 ++ [CallApplyChange c])) state') as [more Hmore].
      exists (CallApplyChange c :: more). rewrite Hmore. simpl.
      by rewrite <- app_assoc. }
  unfold subscribeHandler. simpl.
  destruct (doc_applyChange (w_doc w) change) as [[patches|e] doc']; simpl;
    [|by exists []].
  destruct (forPatches (state_tr (w_view_state w)) patches) as [tr|e]; simpl;
    [|by exists []].
  destruct (state_apply (w_view_state w) tr) as [state'|e]; simpl; [|by exists []].
  destruct (Hloop rest (mkWorld doc' (w_view_state w)
                          (w_calls w ++ [CallApplyChange change])) state')
    as [more Hmore].
  destruct (forChanges _ state' rest) as [[state''|e] w'']; simpl in *.
  - exists (more ++ [CallUpdateState state'']). rewrite Hmore.
    by rewrite <- !app_assoc.
  - exists more. rewrite Hmore. by rewrite <- app_assoc.
Qed.

(** C10. On an empty batch the handler returns at once: the engine, the
    state of the view and the log of calls are what they were, so neither
    [doc.applyChange] nor [view.updateState] has been called.  Any other
    batch does reach the engine. *)
Theorem empty_batch_is_ignored (w : World) :
  subscribeHandler w [] = (Returns tt, w)
  /\ (forall (change : Change) (rest : list Change),
        w_calls (subscribeHandler w (change :: rest)).2 <> w_calls w).
Proof.
  split; [done|]. intros change rest Hsame.
  destruct (first_change_is_applied w change rest) as [more Hcalls].
  rewrite Hsame in Hcalls. apply (f_equal length) in Hcalls.
  rewrite length_app in Hcalls. simpl in Hcalls. lia.
Qed.


(** ** Further facts *)

(** A delete patch empties the tree range that starts at [index + 1] and
    spans [count] positions. *)
Theorem delete_patch_replaces_range (transaction : Transaction)
    (path : OperationPath) (index count : Z) :
  applyPatchToTransaction transaction (deletePatch path index count) =
  tr_replace transaction (index + 1) (index + 1 + count) Slice_empty.
Proof. done. Qed.

Lemma forChanges_calls (changes : list Change) (w w' : World)
    (state state' : EditorState) :
  forChanges w state changes = (Returns state', w') ->
  w_calls w' = w_calls w ++ map CallApplyChange changes.
Proof.
  revert w state. induction changes as [|change rest IH]; intros w state; simpl.
  - intros [= _ <-]. by rewrite app_nil_r.
  - destruct (doc_applyChange (w_doc w) change) as [[patches|e] doc']; [|done].
    destruct (forPatches (state_tr state) patches) as [tr|e]; [|done].
    destruct (state_apply state tr) as [state1|e]; [|done].
    intros Hrest. rewrite (IH _ _ Hrest). simpl. by rewrite <- app_assoc.
Qed.


End BridgeFacts.

(** * The compiler of local steps, further *)

Section CompilerFacts.
Context {marks_schema : MarkSchema} {engine : Engine} {editor : ProseMirror}.

Lemma forSteps_split (operations : list InputOperation) (first second : list Step) :
  forSteps operations (first ++ second) =
  (operations' ← forSteps operations first; forSteps operations' second).
Proof.
  revert operations. induction first as [|step first IH]; intros operations; simpl.
  - done.
  - destruct (stepOperations operations step) as [operations'|e]; simpl; [|done].
    apply IH.
Qed.

(** Compiling the steps of one transaction after those of another gives the
    operations of the first followed by those of the second. *)
Theorem steps_compile_in_sequence (operations : list InputOperation)
    (first second : list Step) (ops1 ops2 : list InputOperation) :
  forSteps [] first = Returns ops1 ->
  forSteps [] second = Returns ops2 ->
  forSteps operations (first ++ second) = Returns (operations ++ ops1 ++ ops2).
Proof.
  intros H1 H2. rewrite forSteps_split, (forSteps_app operations first), H1. simpl.
  rewrite (forSteps_app (operations ++ ops1) second), H2. simpl.
  by rewrite app_assoc.
Qed.

(** Steps of a class without a branch are passed over: they change neither
    the operations nor the success of the compilation, and a transaction
    made of such steps alone gives no change. *)
Theorem other_steps_are_skipped (w : World) (txn : Transaction)
    (operations : list InputOperation) (steps : list Step) :
  forSteps operations (filter (fun step => negb (isOtherStep step)) steps) =
    forSteps operations steps
  /\ (forallb isOtherStep (tr_steps txn) = true ->
      applyTransaction w txn = (Returns None, w)).
Proof.
  assert (Hskip : forall steps operations,
    forSteps operations (filter (fun step => negb (isOtherStep step)) steps) =
    forSteps operations steps).
  { intros l. induction l as [|step rest IH]; intros acc; [done|].
    destruct step as [from to slice|from to mark|from to mark|].
    4: { simpl. apply IH. }
    all: rewrite filter_cons_True by done;
      cbn [forSteps]; destruct (stepOperations acc _); simpl; [apply IH|done]. }
  split; [apply Hskip|].
  intros Hall. unfold applyTransaction.
  assert (Hnone : forSteps [] (tr_steps txn) = Returns []).
  { induction (tr_steps txn) as [|step rest IH]; [done|].
    simpl in Hall. apply andb_prop in Hall as [Hstep Hrest].
    destruct step; try discriminate Hstep. simpl. by apply IH. }
  by rewrite Hnone.
Qed.

Lemma stepOperations_emitted (step : Step) (emitted : list InputOperation) :
  stepOperations [] step = Returns emitted ->
  Forall (fun op => operationPath op = [contentKey] /\ isMakeList op = false) emitted
  /\ (length emitted <= 2)%nat
  /\ (isOtherStep step = false -> (1 <= length emitted)%nat).
Proof.
  destruct step as [from to [slice|]|from to mark|from to mark|]; simpl.
  - destruct (negb (from =? to)); simpl; intros [= <-];
      (split; [repeat constructor|simpl; lia]).
  - intros [= <-]. split; [repeat constructor|simpl; lia].
  - destruct (negb (isMarkType (mark_type_name mark))); [done|].
    destruct (String.eqb (mark_type_name mark) "comment").
    { destruct (negb (hasStringAttr (mark_attrs mark) "id")); [done|].
      intros [= <-]. split; [repeat constructor|simpl; lia]. }
    destruct (String.eqb (mark_type_name mark) "link").
    { destruct (negb (hasStringAttr (mark_attrs mark) "url")); [done|].
      intros [= <-]. split; [repeat constructor|simpl; lia]. }
    intros [= <-]. split; [repeat constructor|simpl; lia].
  - destruct (negb (isMarkType (mark_type_name mark))); [done|].
    destruct (String.eqb (mark_type_name mark) "comment").
    { destruct (negb (hasStringAttr (mark_attrs mark) "id")); [done|].
      intros [= <-]. split; [repeat constructor|simpl; lia]. }
    intros [= <-]. split; [repeat constructor|simpl; lia].
  - intros [= <-]. split; [constructor|]. split; [simpl; lia|done].
Qed.

(** Whatever the steps, every operation handed to the engine is an insert,
    a delete, an addMark or a removeMark on the content list: its path is
    [[contentKey]], and no makeList is ever compiled from a transaction. *)
Theorem operations_stay_in_content (steps : list Step)
    (operations : list InputOperation) :
  forSteps [] steps = Returns operations ->
  Forall (fun op => operationPath op = [contentKey] /\ isMakeList op = false)
    operations.
Proof.
  intros Hops. destruct (forSteps_concat steps operations Hops) as (perStep & Hall & ->).
  clear Hops. induction Hall as [|step emitted steps perStep Hstep _ IH]; simpl.
  - constructor.
  - apply Forall_app. split; [|exact IH].
    by apply (stepOperations_emitted step).
Qed.

(** A replace or mark step that compiles gives one or two operations, so a
    transaction with one such step always gives a change, even when the step
    replaces nothing by nothing. *)
Theorem operation_count_bounds (w : World) (txn : Transaction)
    (operations : list InputOperation) :
  forSteps [] (tr_steps txn) = Returns operations ->
  (length (filter (fun step => negb (isOtherStep step)) (tr_steps txn))
     <= length operations <= 2 * length (tr_steps txn))%nat
  /\ (existsb (fun step => negb (isOtherStep step)) (tr_steps txn) = true ->
      w_calls (applyTransaction w txn).2 = w_calls w ++ [CallChange operations]).
Proof.
  intros Hops.
  assert (Hbounds :
    (length (filter (fun step => negb (isOtherStep step)) (tr_steps txn))
       <= length operations <= 2 * length (tr_steps txn))%nat).
  { destruct (forSteps_concat _ operations Hops) as (perStep & Hall & ->).
    clear Hops. induction Hall as [|step emitted steps perStep Hstep _ IH]; simpl.
    - lia.
    - destruct (stepOperations_emitted step emitted Hstep) as (_ & Hle & Hge).
      rewrite length_app.
      destruct step as [from to slice|from to mark|from to mark|].
      4: { rewrite filter_cons_False by (simpl; intros []). simpl length. lia. }
      all: rewrite filter_cons_True by done; simpl length;
        specialize (Hge eq_refl); lia. }
  split; [exact Hbounds|].
  intros Hsome. unfold applyTransaction. rewrite Hops.
  assert (Hpos : (1 <= length (filter (fun step => negb (isOtherStep step))
                                 (tr_steps txn)))%nat).
  { clear -Hsome. induction (tr_steps txn) as [|step steps IH]; [done|].
    destruct step as [from to slice|from to mark|from to mark|].
    4: { rewrite filter_cons_False by (simpl; intros []). by apply IH. }
    all: rewrite filter_cons_True by done; simpl; lia. }
  destruct operations as [|op operations]; [simpl in Hbounds; lia|].
  simpl. by destruct (doc_change (w_doc w) (op :: operations)).
Qed.

Lemma split_chars_spells (s : string) :
  String.concat "" (split_chars s) = s
  /\ length (split_chars s) = String.length s
  /\ Forall (fun value => String.length value = 1%nat) (split_chars s).
Proof.
  induction s as [|c s (IHc & IHl & IHf)]; simpl.
  - repeat split. constructor.
  - repeat split.
    + destruct (split_chars s) as [|v vs] eqn:Hs; simpl in *.
      * by rewrite <- IHc.
      * by rewrite IHc.
    + by rewrite IHl.
    + by constructor.
Qed.

(** The insert operation of a replace step is placed at [from - 1] and holds
    the text of the slice character by character: as many values as the
    text has characters, each of length one, spelling the text in order. *)
Theorem inserted_values_spell_the_text (from to : Z) (slice : option Slice)
    (operations : list InputOperation) (path : OperationPath) (index : Z)
    (values : list string) :
  stepOperations [] (ReplaceStep from to slice) = Returns operations ->
  In (OpInsert path index values) operations ->
  exists s,
    slice = Some s
    /\ index = from - 1
    /\ String.concat "" values = textBetween_all (slice_content s)
    /\ length values = String.length (textBetween_all (slice_content s))
    /\ Forall (fun value => String.length value = 1%nat) values.
Proof.
  destruct slice as [s|]; simpl.
  - intros [= <-] Hin. exists s.
    assert (Hop : OpInsert path index values =
                  OpInsert [contentKey] (contentPosFromProsemirrorPos from)
                    (split_chars (textBetween_all (slice_content s)))).
    { destruct (negb (from =? to)); simpl in Hin.
      - destruct Hin as [Hin|[Hin|[]]]; [discriminate Hin|by symmetry].
      - destruct Hin as [Hin|[]]. by symmetry. }
    injection Hop as -> -> ->.
    split; [done|]. split; [done|]. apply split_chars_spells.
  - intros [= <-] [Hin|[]]. discriminate Hin.
Qed.

Lemma mark_step_operation_shape (operations result : list InputOperation)
    (from to : Z) (mark : Mark) :
  (stepOperations operations (AddMarkStep from to mark) = Returns result ->
   result = operations ++
     [OpAddMark [contentKey] (from - 1) (to - 2) (mark_type_name mark)
        (addMarkAttrs mark)])
  /\ (stepOperations operations (RemoveMarkStep from to mark) = Returns result ->
      result = operations ++
        [OpRemoveMark [contentKey] (from - 1) (to - 2) (mark_type_name mark)
           (removeMarkAttrs mark)]).
Proof.
  unfold addMarkAttrs, removeMarkAttrs. simpl. unfold contentPosFromProsemirrorPos.
  replace (to - 1 - 1) with (to - 2) by lia.
  split.
  - destruct (negb (isMarkType (mark_type_name mark))); [done|].
    destruct (String.eqb (mark_type_name mark) "comment").
    { destruct (negb (hasStringAttr (mark_attrs mark) "id")); [done|].
      by intros [= <-]. }
    destruct (String.eqb (mark_type_name mark) "link").
    { destruct (negb (hasStringAttr (mark_attrs mark) "url")); [done|].
      by intros [= <-]. }
    by intros [= <-].
  - destruct (negb (isMarkType (mark_type_name mark))); [done|].
    destruct (String.eqb (mark_type_name mark) "comment").
    { destruct (negb (hasStringAttr (mark_attrs mark) "id")); [done|].
      by intros [= <-]. }
    by intros [= <-].
Qed.

(** The operation of a mark step, exactly.  It covers [to - from]
    characters, and an empty tree range is not refused: it gives a flat
    range whose end lies before its start.  The attributes of the mark are
    kept for a comment and, when adding, for a link, and dropped for every
    other kind. *)
Theorem mark_step_operation_exact (operations result : list InputOperation)
    (from to : Z) (mark : Mark) :
  (stepOperations operations (AddMarkStep from to mark) = Returns result ->
   result = operations ++
     [OpAddMark [contentKey] (from - 1) (to - 2) (mark_type_name mark)
        (addMarkAttrs mark)])
  /\ (stepOperations operations (RemoveMarkStep from to mark) = Returns result ->
      result = operations ++
        [OpRemoveMark [contentKey] (from - 1) (to - 2) (mark_type_name mark)
           (removeMarkAttrs mark)])
  /\ (to - 2) - (from - 1) + 1 = to - from
  /\ (from - 1 <= to - 2 <-> from < to).
Proof.
  destruct (mark_step_operation_shape operations result from to mark) as [Hadd Hrem].
  repeat apply conj; [exact Hadd|exact Hrem|lia|lia|lia].
Qed.

End CompilerFacts.

(** * From operations back to patches *)

Section RoundTripFacts.
Context {marks_schema : MarkSchema} {engine : Engine} {editor : ProseMirror}.

Lemma replaceStep_emitted (from to : Z) (slice : option Slice)
    (operations : list InputOperation) (op : InputOperation) :
  stepOperations [] (ReplaceStep from to slice) = Returns operations ->
  In op operations ->
  op = OpDelete [contentKey] (from - 1) (to - from)
  \/ exists s, slice = Some s
       /\ op = OpInsert [contentKey] (from - 1)
                 (split_chars (textBetween_all (slice_content s))).
Proof.
  destruct slice as [s|]; simpl; unfold contentPosFromProsemirrorPos.
  - destruct (negb (from =? to)); simpl; intros [= <-] Hin.
    + destruct Hin as [<-|[<-|[]]]; [by left|right; by exists s].
    + destruct Hin as [<-|[]]. right. by exists s.
  - intros [= <-] [<-|[]]. by left.
Qed.

Lemma split_chars_lookup (s : string) (k : nat) (value : string) :
  split_chars s !! k = Some value -> value <> "".
Proof.
  revert k. induction s as [|c s IH]; intros k; simpl; [done|].
  destruct k as [|k]; simpl.
  - by intros [= <-].
  - apply IH.
Qed.

(** A replace step and the patches that mirror its operations.  The delete
    operation of the step, read back as a delete patch with the same index
    and count, empties exactly the tree range [from, to) of the step.  The
    insert operation, read back one character per patch at consecutive flat
    indices, puts the k-th character at tree position [from + k]. *)
Theorem replace_step_round_trip (transaction : Transaction) (from to : Z)
    (slice : option Slice) (operations : list InputOperation) :
  stepOperations [] (ReplaceStep from to slice) = Returns operations ->
  (forall path index count,
      In (OpDelete path index count) operations ->
      applyPatchToTransaction transaction (deletePatch path index count) =
      tr_replace transaction from to Slice_empty)
  /\ (forall path index values (k : nat) value,
      In (OpInsert path index values) operations ->
      values !! k = Some value ->
      applyPatchToTransaction transaction
        (insertPatch path (index + Z.of_nat k) [value]) =
      tr_replace transaction (from + Z.of_nat k) (from + Z.of_nat k)
        (textSlice value)).
Proof.
  intros Hops. split.
  - intros path index count Hin.
    destruct (replaceStep_emitted _ _ _ _ _ Hops Hin) as [Hop|(s & _ & Hop)];
      [|discriminate Hop].
    injection Hop as -> -> ->. unfold applyPatchToTransaction. simpl.
    replace (from - 1 + 1) with from by lia.
    by replace (from + (to - from)) with to by lia.
  - intros path index values k value Hin Hk.
    destruct (replaceStep_emitted _ _ _ _ _ Hops Hin) as [Hop|(s & _ & Hop)];
      [discriminate Hop|].
    injection Hop as -> -> ->. apply split_chars_lookup in Hk.
    unfold applyPatchToTransaction. simpl.
    destruct (String.eqb_spec value ""); [done|]. simpl.
    by replace (from - 1 + Z.of_nat k + 1) with (from + Z.of_nat k) by lia.
Qed.

End RoundTripFacts.

(** * Patches and batches, further *)

Section ApplierFacts.
Context {marks_schema : MarkSchema} {engine : Engine} {editor : ProseMirror}.


Lemma unhandled_patch_throws (transaction : Transaction) (patch : Patch) :
  ~ In (action patch) handledActions ->
  applyPatchToTransaction transaction patch = Throws (Unreachable (action patch)).
Proof.
  intros Hout. unfold applyPatchToTransaction, handledActions in *. simpl in Hout.
  repeat match goal with
  | |- context [String.eqb (action patch) ?a] =>
      destruct (String.eqb_spec (action patch) a) as [Heq|_];
      [exfalso; apply Hout; rewrite Heq; tauto|]
  end.
  done.
Qed.

Lemma forPatches_unhandled (patches : list Patch) (patch : Patch)
    (transaction : Transaction) :
  In patch patches ->
  ~ In (action patch) handledActions ->
  exists e, forPatches transaction patches = Throws e.
Proof.
  intros Hin Hout. revert transaction.
  induction patches as [|p patches IH]; intros tr; [destruct Hin|]. simpl.
  destruct Hin as [->|Hin].
  - rewrite (unhandled_patch_throws tr patch Hout). by eexists.
  - destruct (applyPatchToTransaction tr p) as [tr'|e]; simpl; [by apply IH|by eexists].
Qed.

Lemma forChanges_shape (changes : list Change) (w w' : World)
    (state : EditorState) (r : outcome EditorState) :
  forChanges w state changes = (r, w') ->
  w_view_state w' = w_view_state w
  /\ exists k : nat,
       (k <= length changes)%nat
       /\ w_calls w' = w_calls w ++ map CallApplyChange (take k changes)
       /\ (forall e, r = Throws e -> (1 <= k)%nat)
       /\ (forall state', r = Returns state' -> k = length changes).
Proof.
  revert w state. induction changes as [|change rest IH]; intros w state; simpl.
  - intros [= <- <-]. split; [done|]. exists 0%nat.
    repeat split; try done. by rewrite app_nil_r.
  - destruct (doc_applyChange (w_doc w) change) as [[patches|e] doc'].
    2: { intros [= <- <-]. split; [done|]. exists 1%nat. simpl. rewrite ?take_0.
         repeat split; try done; lia. }
    destruct (forPatches (state_tr state) patches) as [tr|e].
    2: { intros [= <- <-]. split; [done|]. exists 1%nat. simpl. rewrite ?take_0.
         repeat split; try done; lia. }
    destruct (state_apply state tr) as [state1|e].
    2: { intros [= <- <-]. split; [done|]. exists 1%nat. simpl. rewrite ?take_0.
         repeat split; try done; lia. }
    intros Hrest. destruct (IH _ _ Hrest) as (Hview & k & Hk & Hcalls & Hthrow & Hret).
    split; [exact Hview|]. exists (S k). simpl in *.
    split; [lia|]. split; [by rewrite Hcalls, <- app_assoc|].
    split; [intros; lia|]. intros state' Hr. by rewrite (Hret state' Hr).
Qed.

(** A batch that fails part-way is not undone and not shown: the engine has
    been given the first k changes of the batch, k at least one, and the
    state of the view is the one from before the batch; the view has not
    been updated. *)
Theorem failed_batch_leaves_view (w w' : World) (changes : list Change) (e : Error) :
  subscribeHandler w changes = (Throws e, w') ->
  w_view_state w' = w_view_state w
  /\ exists k : nat,
       (1 <= k <= length changes)%nat
       /\ w_calls w' = w_calls w ++ map CallApplyChange (take k changes).
Proof.
  unfold subscribeHandler. destruct changes as [|change rest]; [done|].
  change ((length (change :: rest) =? 0)%nat) with false. cbv iota.
  destruct (forChanges w (w_view_state w) (change :: rest)) as [[state'|e'] w1] eqn:Hloop;
    [done|].
  intros [= <- <-].
  destruct (forChanges_shape _ _ _ _ _ Hloop) as (Hview & k & Hk & Hcalls & Hthrow & _).
  split; [exact Hview|]. exists k. split; [|exact Hcalls].
  split; [by apply (Hthrow e')|exact Hk].
Qed.


Lemma forChanges_app (first second : list Change) (w : World) (state : EditorState) :
  forChanges w state (first ++ second) =
  match forChanges w state first with
  | (Returns state', w') => forChanges w' state' second
  | (Throws e, w') => (Throws e, w')
  end.
Proof.
  revert w state. induction first as [|change first IH]; intros w state; simpl; [done|].
  destruct (doc_applyChange (w_doc w) change) as [[patches|e] doc']; [|done].
  destruct (forPatches (state_tr state) patches) as [tr|e]; [|done].
  destruct (state_apply state tr) as [state1|e]; [|done].
  apply IH.
Qed.

(** The loop reads the engine and the running state only: two worlds with
    the same engine give the same outcome and the same engine afterwards. *)
Lemma forChanges_engine_only (changes : list Change) (w1 w2 : World)
    (state : EditorState) :
  w_doc w1 = w_doc w2 ->
  (forChanges w1 state changes).1 = (forChanges w2 state changes).1
  /\ w_doc (forChanges w1 state changes).2 = w_doc (forChanges w2 state changes).2.
Proof.
  revert w1 w2 state. induction changes as [|change rest IH]; intros w1 w2 state Hdoc;
    simpl; [done|].
  rewrite Hdoc.
  destruct (doc_applyChange (w_doc w2) change) as [[patches|e] doc']; [|done].
  destruct (forPatches (state_tr state) patches) as [tr|e]; [|done].
  destruct (state_apply state tr) as [state1|e]; [|done].
  by apply IH.
Qed.

(** Batching does not matter for what the editor ends with: when a batch
    and then a second batch are handled, both to the end, handling the two
    as one batch also succeeds and leaves the same engine and the same
    state of the view. *)
Theorem batches_can_be_merged (w w1 w2 : World) (first second : list Change) :
  first <> [] ->
  second <> [] ->
  subscribeHandler w first = (Returns tt, w1) ->
  subscribeHandler w1 second = (Returns tt, w2) ->
  exists w',
    subscribeHandler w (first ++ second) = (Returns tt, w')
    /\ w_doc w' = w_doc w2
    /\ w_view_state w' = w_view_state w2.
Proof.
  intros Hfirst Hsecond. unfold subscribeHandler.
  destruct first as [|c1 first]; [done|]. destruct second as [|c2 second]; [done|].
  change ((length (c1 :: first) =? 0)%nat) with false.
  change ((length (c2 :: second) =? 0)%nat) with false.
  change ((length ((c1 :: first) ++ c2 :: second) =? 0)%nat) with false. cbv iota.
  rewrite forChanges_app.
  destruct (forChanges w (w_view_state w) (c1 :: first)) as [[state1|e] wa] eqn:H1;
    [|done].
  intros [= <-]. simpl w_view_state.
  destruct (forChanges_engine_only (c2 :: second)
              (mkWorld (w_doc wa) state1 (w_calls wa ++ [CallUpdateState state1]))
              wa state1 eq_refl) as [Hout Hdoc].
  destruct (forChanges (mkWorld (w_doc wa) state1 (w_calls wa ++ [CallUpdateState state1]))
              state1 (c2 :: second)) as [[state2|e] wb] eqn:H2; [|done].
  intros [= <-].
  destruct (forChanges wa state1 (c2 :: second)) as [r wc] eqn:H3.
  simpl in Hout, Hdoc. subst r. eexists. split; [done|]. simpl. by split.
Qed.

(** A change with one patch of an unhandled action is lost for the view,
    wherever it stands in the batch.  When the changes before it have been
    worked off and the engine answers it with patches of which one has an
    action outside the five handled ones, the handler throws: the engine has
    applied the changes up to and including this one, the state of the view
    is the one from before the batch, the view has not been updated, and the
    changes behind it are not reached. *)
Theorem unhandled_patch_aborts_batch (w w1 : World) (before rest : list Change)
    (change : Change) (state1 : EditorState) (patches : list Patch)
    (doc' : Micromerge) (patch : Patch) :
  forChanges w (w_view_state w) before = (Returns state1, w1) ->
  doc_applyChange (w_doc w1) change = (Returns patches, doc') ->
  In patch patches ->
  ~ In (action patch) handledActions ->
  exists e,
    subscribeHandler w (before ++ change :: rest) =
    (Throws e,
     mkWorld doc' (w_view_state w)
       (w_calls w ++ map CallApplyChange before ++ [CallApplyChange change])).
Proof.
  intros Hbefore Happly Hin Hout.
  destruct (forPatches_unhandled patches patch (state_tr state1) Hin Hout) as [e He].
  destruct (forChanges_shape _ _ _ _ _ Hbefore) as (Hview & _).
  pose proof (forChanges_calls _ _ _ _ _ Hbefore) as Hcalls.
  exists e. unfold subscribeHandler.
  assert (Hlen : (length (before ++ change :: rest) =? 0)%nat = false).
  { rewrite length_app. simpl. apply Nat.eqb_neq. lia. }
  rewrite Hlen, forChanges_app, Hbefore. simpl. rewrite Happly, He.
  by rewrite Hview, Hcalls, <- app_assoc.
Qed.

End ApplierFacts.

(** * The initial document, further *)

Section ProjectionFacts.
Context {marks_schema : MarkSchema}.

Lemma mapM_outcome_app {A B : Type} (f : A -> outcome B) (l1 l2 : list A) :
  mapM f (l1 ++ l2) = (a ← mapM f l1; b ← mapM f l2; Returns (a ++ b)).
Proof.
  induction l1 as [|x l1 IH]; simpl.
  - by destruct (mapM f l2).
  - destruct (f x) as [y|e]; simpl; [|done]. rewrite IH.
    destruct (mapM f l1) as [a|e]; simpl; [|done].
    by destruct (mapM f l2).
Qed.

Lemma mapM_outcome_map {A B C : Type} (g : A -> B) (f : B -> outcome C) (l : list A) :
  mapM f (map g l) = mapM (fun x => f (g x)) l.
Proof. induction l as [|x l IH]; simpl; [done|]. by rewrite IH. Qed.

Lemma mapM_outcome_ext {A B : Type} (f g : A -> outcome B) (l : list A) :
  (forall x, f x = g x) -> mapM f l = mapM g l.
Proof.
  intros Hfg. induction l as [|x l IH]; simpl; [done|]. by rewrite Hfg, IH.
Qed.

Lemma pushMarkValues_mapM (schema : Projection.DocSchema) (markType : string)
    (marks : list Mark) (values : list Attrs) :
  Projection.pushMarkValues schema markType marks values =
  (made ← mapM (Projection.mark schema markType) values; Returns (marks ++ made)).
Proof.
  revert marks. induction values as [|value values IH]; intros marks; simpl.
  - by rewrite app_nil_r.
  - destruct (Projection.mark schema markType value) as [m|e]; simpl; [|done].
    rewrite IH. destruct (mapM (Projection.mark schema markType) values); simpl; [|done].
    by rewrite <- app_assoc.
Qed.

(** The requests of one mark kind. *)
Lemma pushMarksOfType_mapM (schema : Projection.DocSchema) (span : FormatSpanWithText)
    (marks : list Mark) (markType : string) :
  Projection.pushMarksOfType schema span marks markType =
  (made ← mapM (fun request => Projection.mark schema request.1 request.2)
            match span_marks span !! markType with
            | None => []
            | Some (MarkValueList entries) => map (fun entry => (markType, entry)) entries
            | Some (MarkValueSingle value) =>
                if truthy (value !! "active") then [(markType, value)] else []
            end;
   Returns (marks ++ made)).
Proof.
  unfold Projection.pushMarksOfType.
  destruct (span_marks span !! markType) as [[entries|value]|]; simpl.
  - rewrite pushMarkValues_mapM, mapM_outcome_map. done.
  - destruct (truthy (value !! "active")); simpl; [|by rewrite app_nil_r].
    by destruct (Projection.mark schema markType value).
  - by rewrite app_nil_r.
Qed.

Lemma forMarkTypes_mapM (schema : Projection.DocSchema) (span : FormatSpanWithText)
    (marks : list Mark) (markTypes : list string) :
  Projection.forMarkTypes schema span marks markTypes =
  (made ← mapM (fun request => Projection.mark schema request.1 request.2)
            (flat_map
               (fun markType =>
                  match span_marks span !! markType with
                  | None => []
                  | Some (MarkValueList entries) =>
                      map (fun entry => (markType, entry)) entries
                  | Some (MarkValueSingle value) =>
                      if truthy (value !! "active") then [(markType, value)] else []
                  end)
               markTypes);
   Returns (marks ++ made)).
Proof.
  revert marks. induction markTypes as [|markType rest IH]; intros marks; simpl.
  - by rewrite app_nil_r.
  - rewrite pushMarksOfType_mapM, mapM_outcome_app.
    destruct (mapM _ match span_marks span !! markType with
                     | None => [] | Some (MarkValueList entries) => _
                     | Some (MarkValueSingle value) => _ end) as [first|e];
      simpl; [|done].
    rewrite IH. destruct (mapM _ (flat_map _ rest)) as [later|e]; simpl; [|done].
    by rewrite app_assoc.
Qed.

Lemma spanNode_requests (schema : Projection.DocSchema) (span : FormatSpanWithText) :
  Projection.spanNode schema span =
  (marks ← mapM (fun request => Projection.mark schema request.1 request.2)
             (markRequests span);
   Projection.text schema (span_text span) marks).
Proof.
  unfold Projection.spanNode, markRequests. rewrite forMarkTypes_mapM.
  by destruct (mapM _ _).
Qed.

Lemma mapSpans_mapM (schema : Projection.DocSchema) (spans : list FormatSpanWithText) :
  Projection.mapSpans schema spans = mapM (Projection.spanNode schema) spans.
Proof. induction spans as [|span spans IH]; simpl; [done|]. by rewrite IH. Qed.

(** C5. For every schema handed to the builder and every list of spans that
    is not the single span without text, the document is built from one
    call of [schema.text] per span, in span order, and the marks given to
    that call are the results of the calls of [schema.mark] listed by
    [markRequests]: kind by kind in the fixed order of [ALL_MARKS], not in
    an order of the span's mark map; one call per entry of a list value; one
    call for a single value only when its [active] flag is set.  The first
    call that throws ends the projection with its error. *)
Theorem projection_marks_follow_declaration_order (schema : Projection.DocSchema)
    (spans : list FormatSpanWithText) :
  Projection.prosemirrorDocFromCRDT schema spans =
  if isEmptyDocument spans then
    paragraph ← Projection.node schema "paragraph" Projection.AttrsEmptyArray None;
    Projection.node schema "doc" Projection.AttrsUndefined (Some [paragraph])
  else
    nodes ← mapM
      (fun span =>
         marks ← mapM (fun request => Projection.mark schema request.1 request.2)
                   (markRequests span);
         Projection.text schema (span_text span) marks)
      spans;
    paragraph ← Projection.node schema "paragraph" Projection.AttrsUndefined (Some nodes);
    Projection.node schema "doc" Projection.AttrsUndefined (Some [paragraph]).
Proof.
  assert (Hgeneral :
    (nodes ← Projection.mapSpans schema spans;
     paragraph ← Projection.node schema "paragraph" Projection.AttrsUndefined (Some nodes);
     Projection.node schema "doc" Projection.AttrsUndefined (Some [paragraph])) =
    (nodes ← mapM
       (fun span =>
          marks ← mapM (fun request => Projection.mark schema request.1 request.2)
                    (markRequests span);
          Projection.text schema (span_text span) marks)
       spans;
     paragraph ← Projection.node schema "paragraph" Projection.AttrsUndefined (Some nodes);
     Projection.node schema "doc" Projection.AttrsUndefined (Some [paragraph]))).
  { rewrite mapSpans_mapM.
    by rewrite (mapM_outcome_ext _ _ spans (spanNode_requests schema)). }
  unfold Projection.prosemirrorDocFromCRDT, isEmptyDocument.
  destruct spans as [|span [|span' rest]]; try exact Hgeneral.
  by destruct (String.eqb (span_text span) "").
Qed.

Lemma pushMarkValues_plain (markType : string) (marks : list Mark) (values : list Attrs) :
  Projection.pushMarkValues plainSchema markType marks values =
  Returns (fold_left (fun marks value => marks ++ [schema_mark markType (Some value)])
             values marks).
Proof.
  revert marks. induction values as [|value values IH]; intros marks; simpl; [done|].
  apply IH.
Qed.

Lemma forMarkTypes_plain (span : FormatSpanWithText) (marks : list Mark)
    (markTypes : list string) :
  Projection.forMarkTypes plainSchema span marks markTypes =
  Returns (fold_left (pushMarksOfType span) markTypes marks).
Proof.
  revert marks. induction markTypes as [|markType rest IH]; intros marks; simpl; [done|].
  assert (Hturn : Projection.pushMarksOfType plainSchema span marks markType =
                  Returns (pushMarksOfType span marks markType)).
  { unfold Projection.pushMarksOfType, pushMarksOfType.
    destruct (span_marks span !! markType) as [[entries|value]|]; [|by destruct (truthy _)|done].
    apply pushMarkValues_plain. }
  rewrite Hturn. simpl. apply IH.
Qed.

(** The builder of the first part of this file is the builder over any
    schema, taken at the schema of plain constructors. *)
Lemma prosemirrorDocFromCRDT_plain (spans : list FormatSpanWithText) :
  prosemirrorDocFromCRDT spans = Projection.prosemirrorDocFromCRDT plainSchema spans.
Proof.
  assert (Hmap : forall l, mapSpans l = Projection.mapSpans plainSchema l).
  { induction l as [|span l IH]; simpl; [done|].
    unfold Projection.spanNode, spanTextNode, spanMarks.
    rewrite forMarkTypes_plain. simpl. by rewrite IH. }
  unfold prosemirrorDocFromCRDT, Projection.prosemirrorDocFromCRDT.
  rewrite Hmap.
  destruct spans as [|span [|span' rest]]; simpl.
  - done.
  - destruct (String.eqb (span_text span) ""); [done|].
    by destruct (Projection.spanNode plainSchema span).
  - by destruct (Projection.mapSpans plainSchema _).
Qed.

End ProjectionFacts.

(** * Start-up, local dispatch and key bindings *)

Section EditorFacts.
Context {marks_schema : MarkSchema} {engine : Engine} {editor : ProseMirror}
  {selection : EditorSelection editor}.

Lemma applyToDocs_shape (change : Change) (docs docs' : list Micromerge)
    (r : outcome unit) :
  applyToDocs change docs = (r, docs') ->
  length docs' = length docs
  /\ (r = Returns tt ->
      Forall2 (fun doc doc' => exists patches,
                 doc_applyChange doc change = (Returns patches, doc')) docs docs').
Proof.
  revert docs' r. induction docs as [|doc rest IH]; intros docs' r; simpl.
  - intros [= <- <-]. split; [done|]. constructor.
  - destruct (doc_applyChange doc change) as [[patches|e] doc1] eqn:Happly.
    + destruct (applyToDocs change rest) as [r' rest'] eqn:Hrest.
      intros [= <- <-]. destruct (IH rest' r' eq_refl) as [Hlen Hall].
      split; [simpl; by rewrite Hlen|]. intros Hr. constructor; [by eexists|by apply Hall].
    + intros [= <- <-]. split; [done|]. intros Hr. discriminate Hr.
Qed.

(** All documents are initialized by one and the same change: when
    [initializeDocs] returns, the first document has made the change from
    the two initial operations, and every other document has applied that
    very change, each exactly once. *)
Theorem initializeDocs_shares_one_change (docs docs' : list Micromerge) :
  initializeDocs docs = (Returns tt, docs') ->
  exists doc0 rest initialChange doc0' rest',
    docs = doc0 :: rest
    /\ docs' = doc0' :: rest'
    /\ doc_change doc0 initialOperations = (Returns initialChange, doc0')
    /\ Forall2 (fun doc doc' => exists patches,
                  doc_applyChange doc initialChange = (Returns patches, doc'))
         rest rest'.
Proof.
  unfold initializeDocs. destruct docs as [|doc0 rest]; [done|].
  destruct (doc_change doc0 initialOperations) as [[initialChange|e] doc0'] eqn:Hchange;
    [|done].
  destruct (applyToDocs initialChange rest) as [r' rest'] eqn:Hrest.
  intros [= -> <-].
  exists doc0, rest, initialChange, doc0', rest'.
  split; [done|]. split; [done|]. split; [done|].
  by apply (applyToDocs_shape _ _ _ _ Hrest).
Qed.

(** A local transaction that the view accepts and that compiles: the view
    is updated with the state after the transaction; without operations
    nothing else happens; with operations the engine makes one change first,
    and that change is enqueued, once, behind those already waiting. *)
Theorem dispatch_enqueues_the_change (ew : EditorWorld) (txn : Transaction)
    (state : EditorState) (operations : list InputOperation) :
  state_apply (w_view_state (e_world ew)) txn = Returns state ->
  forSteps [] (tr_steps txn) = Returns operations ->
  (operations = [] ->
   dispatchTransaction ew txn =
   (Returns tt,
    mkEditorWorld
      (mkWorld (w_doc (e_world ew)) state
         (w_calls (e_world ew) ++ [CallUpdateState state]))
      (e_enqueued ew)))
  /\ (forall change doc',
      operations <> [] ->
      doc_change (w_doc (e_world ew)) operations = (Returns change, doc') ->
      dispatchTransaction ew txn =
      (Returns tt,
       mkEditorWorld
         (mkWorld doc' state
            (w_calls (e_world ew) ++ [CallChange operations; CallUpdateState state]))
         (e_enqueued ew ++ [change]))).
Proof.
  intros Hstate Hops. unfold dispatchTransaction, applyTransaction.
  rewrite Hstate, Hops. split.
  - by intros ->.
  - intros change doc' Hne Hchange.
    destruct operations as [|op operations]; [done|]. simpl.
    rewrite Hchange. simpl. by rewrite <- app_assoc.
Qed.

(** A local transaction that fails, at whatever point, is not shown and not
    sent: the state of the view and the queue are as before, and the view
    has not been updated.  When the failure is a refused mark step, nothing
    at all has changed. *)
Theorem failed_dispatch_leaves_view_and_queue (ew ew' : EditorWorld)
    (txn : Transaction) (e : Error) :
  dispatchTransaction ew txn = (Throws e, ew') ->
  w_view_state (e_world ew') = w_view_state (e_world ew)
  /\ e_enqueued ew' = e_enqueued ew
  /\ (forall state, ~ In (CallUpdateState state)
                      (drop (length (w_calls (e_world ew))) (w_calls (e_world ew'))))
  /\ (forall step, In step (tr_steps txn) -> rejectedMarkStep step = true -> ew' = ew).
Proof.
  unfold dispatchTransaction.
  destruct (state_apply (w_view_state (e_world ew)) txn) as [state|e1] eqn:Hstate.
  2: { intros [= <- <-]. repeat split. rewrite drop_all. intros state [].  }
  unfold applyTransaction.
  destruct (forSteps [] (tr_steps txn)) as [operations|e1] eqn:Hops.
  2: { intros [= <- <-]. simpl. repeat split.
       - rewrite drop_all. intros state' [].
       - by destruct ew. }
  destruct (0 <? length operations)%nat; [|done].
  destruct (doc_change (w_doc (e_world ew)) operations) as [[change|e1] doc'];
    [done|].
  simpl. intros [= <- <-]. simpl. repeat split.
  - rewrite drop_app_length. intros state' [Hin|[]]. discriminate Hin.
  - intros step Hin Hrej. exfalso.
    destruct (forSteps_throws (tr_steps txn) step [] Hin) as [e2 He2].
    { by apply (rejected_step_throws []). }
    rewrite He2 in Hops. discriminate Hops.
Qed.

(** The command of [addMark]: it marks the selection of the given state.
    Without a [dispatch] callback it answers true and nothing is
    dispatched.  With [dispatchTransaction] as callback, on an editor whose
    transaction records the mark as one step over the selection, a mark that
    passes the checks of the compiler reaches the engine as one addMark
    operation over the flat range of the selection, and the change is
    enqueued. *)
Theorem addMark_command_reaches_engine (ew : EditorWorld) (markType : string)
    (makeAttrs : unit -> Attrs) (state state' : EditorState) (tr : Transaction)
    (change : Change) (doc' : Micromerge) :
  let from := selection_from state in
  let to := selection_to state in
  let mark := schema_mark markType (Some (makeAttrs tt)) in
  let operation :=
    OpAddMark [contentKey] (from - 1) (to - 2) markType (addMarkAttrs mark) in
  tr_addMark (state_tr state) from to mark = Returns tr ->
  tr_steps tr = [AddMarkStep from to mark] ->
  rejectedMarkStep (AddMarkStep from to mark) = false ->
  state_apply (w_view_state (e_world ew)) tr = Returns state' ->
  doc_change (w_doc (e_world ew)) [operation] = (Returns change, doc') ->
  addMark markType makeAttrs state None ew = (Returns true, ew)
  /\ addMark markType makeAttrs state
       (Some (fun txn ew => dispatchTransaction ew txn)) ew =
     (Returns true,
      mkEditorWorld
        (mkWorld doc' state'
           (w_calls (e_world ew) ++ [CallChange [operation]; CallUpdateState state']))
        (e_enqueued ew ++ [change])).
Proof.
  intros from to mark operation Htr Hsteps Hok Hstate Hchange.
  unfold addMark. fold from to mark. rewrite Htr. split; [done|].
  assert (Hops : forSteps [] (tr_steps tr) = Returns [operation]).
  { rewrite Hsteps. cbn [forSteps].
    destruct (stepOperations [] (AddMarkStep from to mark)) as [ops|e] eqn:Hstep.
    - simpl. f_equal.
      apply (proj1 (mark_step_operation_shape [] ops from to mark)) in Hstep.
      by rewrite Hstep.
    - assert (Hrej : rejectedMarkStep (AddMarkStep from to mark) = true).
      { apply (rejected_step_throws []). by exists e. }
      rewrite Hok in Hrej. discriminate Hrej. }
  unfold dispatchTransaction, applyTransaction. rewrite Hstate, Hops. simpl.
  rewrite Hchange. simpl. by rewrite <- app_assoc.
Qed.

(** The marks made by the key bindings "Mod-e" (a comment with a fresh id)
    and "Mod-k" (a link with a search url) always carry the string attribute
    that the compiler asks for: whatever the uuid and the range, their
    add-mark steps compile, and the operation keeps the attributes. *)
Theorem keymap_marks_pass_validation (operations : list InputOperation)
    (uuid : string) (from to : Z) :
  let comment := schema_mark "comment" (Some {[ "id" := JsString uuid ]}) in
  let link :=
    schema_mark "link"
      (Some {[ "url" := JsString ("https://www.google.com/search?q=" +:+ uuid) ]}) in
  (isMarkType "comment" = true ->
   stepOperations operations (AddMarkStep from to comment) =
   Returns (operations ++
     [OpAddMark [contentKey] (from - 1) (to - 2) "comment" (mark_attrs comment)]))
  /\ (isMarkType "link" = true ->
      stepOperations operations (AddMarkStep from to link) =
      Returns (operations ++
        [OpAddMark [contentKey] (from - 1) (to - 2) "link" (mark_attrs link)])).
Proof.
  intros comment link. unfold contentPosFromProsemirrorPos.
  split; intros Hkind; simpl; rewrite Hkind; simpl;
    unfold hasStringAttr; simpl; rewrite lookup_singleton_eq; simpl;
    unfold contentPosFromProsemirrorPos;
    by replace (to - 1 - 1) with (to - 2) by lia.
Qed.

End EditorFacts.

(** * Runs on the reference collaborators *)

Section Runs.
#[local] Existing Instance peritextMarks.
#[local] Existing Instance historyEngine.
#[local] Existing Instance plainEditor.

(** The link of four characters over the flat range 0 .. 3: the patch marks
    the tree range [1, 5), and the step over [1, 5) compiles back to 0 .. 3. *)
Lemma mark_range_round_trip_witness :
  isMarkType "link" = true
  /\ hasStringAttr (Some urlAttrs) "url" = true
  /\ applyPatchToTransaction (mkPlain "text" [])
       (addMarkPatch ["text"] 0 3 "link" (Some urlAttrs)) =
     Returns (mkPlain "text" [AddMarkStep 1 5 (mkMark "link" (Some urlAttrs))])
  /\ contentPosFromProsemirrorPos 1 = 0
  /\ contentPosFromProsemirrorPos (5 - 1) = 3
  /\ exists attrs',
       stepOperations [] (AddMarkStep 1 5 (mkMark "link" (Some urlAttrs))) =
       Returns [OpAddMark ["text"] 0 3 "link" attrs'].
Proof.
  pose proof (mark_range_round_trip (mkPlain "text" []) [] ["text"] 0 3 "link"
                (Some urlAttrs)) as H.
  cbv zeta in H. destruct H as (Hadd & _ & _ & _ & Hstart & Hend & Hback & _).
  split; [reflexivity|]. split; [reflexivity|]. split; [exact Hadd|].
  split; [exact Hstart|]. split; [exact Hend|].
  apply Hback.
  - reflexivity.
  - intros H. discriminate H.
  - intros _. reflexivity.
Defined.

(** One character inserted in front of "lo". *)
Lemma insert_patch_inserts_first_value_witness :
  "h" <> ""
  /\ applyPatchToTransaction docLo (insertPatch ["text"] 0 ["h"]) =
     Returns (mkPlain "hlo" [ReplaceStep 1 1 (Some (textSlice "h"))]).
Proof.
  assert (Hne : "h" <> "") by discriminate.
  split; [exact Hne|].
  exact (proj1 (insert_patch_inserts_first_value docLo ["text"] 0 "h" [] Hne)).
Defined.

(** C2 fails as stated: the patch insert(0, ['h', 'i']) applied to "lo" puts
    the text "h" at tree position 1, not "hi"; the tree text is "hlo". *)
Lemma insert_patch_counterexample :
  exists tr,
    applyPatchToTransaction docLo (insertPatch ["text"] 0 ["h"; "i"]) = Returns tr
    /\ plain_steps tr = [ReplaceStep 1 1 (Some (textSlice "h"))]
    /\ plain_text tr = "hlo"
    /\ plain_text tr <> "hilo".
Proof.
  exists (mkPlain "hlo" [ReplaceStep 1 1 (Some (textSlice "h"))]).
  repeat split. discriminate.
Qed.

(** The scenario of the patch applier: "hi" typed in front of "lo" is one
    insert operation of two characters; the engine reports it as one patch
    per character, and the handler of a replica showing "lo" ends with the
    tree text "hilo". *)
Lemma insert_hi_into_lo :
  forSteps [] [ReplaceStep 1 1 (Some (textSlice "hi"))] =
    Returns [OpInsert ["text"] 0 ["h"; "i"]]
  /\ subscribeHandler (freshWorld "lo") [[OpInsert ["text"] 0 ["h"; "i"]]] =
     (Returns tt,
      mkWorld [[OpInsert ["text"] 0 ["h"; "i"]]] "hilo"
        [CallApplyChange [OpInsert ["text"] 0 ["h"; "i"]]; CallUpdateState "hilo"]).
Proof. split; reflexivity. Qed.

(** C4 fails as stated: removing a link whose mark has no attributes at all
    is compiled, to a removeMark operation without attributes. *)
Lemma mark_step_validation_counterexample :
  isMarkType "link" = true
  /\ hasStringAttr None "url" = false
  /\ stepOperations [] (RemoveMarkStep 1 3 (mkMark "link" None)) =
     Returns [OpRemoveMark ["text"] 0 1 "link" None]
  /\ (forall e, stepOperations [] (RemoveMarkStep 1 3 (mkMark "link" None)) <> Throws e)
  /\ applyTransaction (freshWorld "lo")
       (mkPlain "lo" [RemoveMarkStep 1 3 (mkMark "link" None)]) =
     (Returns (Some [OpRemoveMark ["text"] 0 1 "link" None]),
      mkWorld [[OpRemoveMark ["text"] 0 1 "link" None]] "lo"
        [CallChange [OpRemoveMark ["text"] 0 1 "link" None]]).
Proof. repeat split. intros e. discriminate. Qed.

(** A comment added without an id, after a valid insertion: the whole
    transaction is refused and the engine is not called. *)
Lemma mark_step_validation_witness :
  exists e,
    applyTransaction (freshWorld "lo")
      (mkPlain "xlo" [ReplaceStep 1 1 (Some (textSlice "x"));
                      AddMarkStep 1 3 (mkMark "comment" None)]) =
    (Throws e, freshWorld "lo").
Proof.
  apply (proj2 (proj2 (@mark_step_validation peritextMarks historyEngine plainEditor))
           (freshWorld "lo") _ (AddMarkStep 1 3 (mkMark "comment" None))).
  - simpl. right. left. reflexivity.
  - reflexivity.
Defined.

(** A patch of the internal action "set" is not handled. *)
Lemma unknown_patch_action_aborts_witness :
  ~ In "set" handledActions
  /\ applyPatchToTransaction docLo (mkPatch "set" [] 0 [] 0 "" 0 0 "" None) =
     Throws (Unreachable "set").
Proof.
  assert (Hout : ~ In "set" handledActions).
  { simpl. intros [H|[H|[H|[H|[H|[]]]]]]; discriminate H. }
  split; [exact Hout|].
  exact (proj1 (unknown_patch_action_aborts docLo
                  (mkPatch "set" [] 0 [] 0 "" 0 0 "" None) Hout)).
Defined.

(** The root list is re-created: the text goes; any other list is ignored. *)
Lemma makeList_runs :
  applyPatchToTransaction docLo (makeListPatch [] "text") =
    Returns (mkPlain "" [ReplaceStep 0 4 (Some Slice_empty)])
  /\ applyPatchToTransaction docLo (makeListPatch [] "comments") = Returns docLo
  /\ applyPatchToTransaction docLo (makeListPatch ["text"] "text") = Returns docLo.
Proof. repeat split. Qed.

(** "hi" typed in front of "lo": one change of one insert operation. *)
Lemma transaction_is_one_change_witness :
  forSteps [] [ReplaceStep 1 1 (Some (textSlice "hi"))] =
    Returns [OpInsert ["text"] 0 ["h"; "i"]]
  /\ applyTransaction (freshWorld "hilo")
       (mkPlain "hilo" [ReplaceStep 1 1 (Some (textSlice "hi"))]) =
     (Returns (Some [OpInsert ["text"] 0 ["h"; "i"]]),
      mkWorld [[OpInsert ["text"] 0 ["h"; "i"]]] "hilo"
        [CallChange [OpInsert ["text"] 0 ["h"; "i"]]]).
Proof.
  pose proof (transaction_is_one_change (freshWorld "hilo")
                (mkPlain "hilo" [ReplaceStep 1 1 (Some (textSlice "hi"))])
                [OpInsert ["text"] 0 ["h"; "i"]] eq_refl) as (_ & _ & Hcall).
  split; [reflexivity|].
  apply Hcall. discriminate.
Defined.

(** A transaction without steps: null, and no call. *)
Lemma empty_transaction_is_no_change :
  applyTransaction (freshWorld "lo") docLo = (Returns None, freshWorld "lo").
Proof. reflexivity. Qed.


End Runs.

(** * Further runs on the reference collaborators *)

Section MoreRuns.
#[local] Existing Instance peritextMarks.
#[local] Existing Instance historyEngine.
#[local] Existing Instance plainEditor.
#[local] Existing Instance plainSelection.

(** "x" typed at the start, then made strong. *)
Lemma steps_compile_in_sequence_witness :
  forSteps [] ([ReplaceStep 1 1 (Some (textSlice "x"))]
               ++ [AddMarkStep 1 2 (mkMark "strong" None)]) =
  Returns [OpInsert ["text"] 0 ["x"]; OpAddMark ["text"] 0 0 "strong" None].
Proof.
  exact (steps_compile_in_sequence []
           [ReplaceStep 1 1 (Some (textSlice "x"))]
           [AddMarkStep 1 2 (mkMark "strong" None)]
           [OpInsert ["text"] 0 ["x"]] [OpAddMark ["text"] 0 0 "strong" None]
           eq_refl eq_refl).
Defined.

(** Two steps of another class around an insertion. *)
Lemma other_steps_are_skipped_witness :
  forSteps [] [OtherStep; ReplaceStep 1 1 (Some (textSlice "x")); OtherStep] =
    Returns [OpInsert ["text"] 0 ["x"]]
  /\ applyTransaction (freshWorld "lo") (mkPlain "lo" [OtherStep; OtherStep]) =
     (Returns None, freshWorld "lo").
Proof.
  destruct (other_steps_are_skipped (freshWorld "lo")
              (mkPlain "lo" [OtherStep; OtherStep]) []
              [OtherStep; ReplaceStep 1 1 (Some (textSlice "x")); OtherStep])
    as [Hskip Hnone].
  split; [by rewrite <- Hskip|]. by apply Hnone.
Defined.

(** A replacement and a link. *)
Lemma operations_stay_in_content_witness :
  Forall (fun op => operationPath op = ["text"] /\ isMakeList op = false)
    [OpDelete ["text"] 0 1; OpInsert ["text"] 0 ["x"];
     OpAddMark ["text"] 0 0 "link" (Some urlAttrs)].
Proof.
  exact (operations_stay_in_content
           [ReplaceStep 1 2 (Some (textSlice "x"));
            AddMarkStep 1 2 (mkMark "link" (Some urlAttrs))] _ eq_refl).
Defined.

(** A replace step that replaces nothing by nothing still gives a change,
    of one insert without values. *)
Lemma operation_count_bounds_witness :
  forSteps [] [ReplaceStep 1 1 (Some Slice_empty)] = Returns [OpInsert ["text"] 0 []]
  /\ w_calls (applyTransaction (freshWorld "lo")
                (mkPlain "lo" [ReplaceStep 1 1 (Some Slice_empty)])).2 =
     [CallChange [OpInsert ["text"] 0 []]].
Proof.
  split; [reflexivity|].
  exact (proj2 (operation_count_bounds (freshWorld "lo")
                  (mkPlain "lo" [ReplaceStep 1 1 (Some Slice_empty)])
                  [OpInsert ["text"] 0 []] eq_refl) eq_refl).
Defined.

(** "lo" replaced by "hi". *)
Lemma inserted_values_spell_the_text_witness :
  exists s,
    Some (textSlice "hi") = Some s
    /\ 0 = 1 - 1
    /\ String.concat "" ["h"; "i"] = textBetween_all (slice_content s)
    /\ length ["h"; "i"] = String.length (textBetween_all (slice_content s))
    /\ Forall (fun value => String.length value = 1%nat) ["h"; "i"].
Proof.
  assert (Hops : stepOperations [] (ReplaceStep 1 3 (Some (textSlice "hi"))) =
                 Returns [OpDelete ["text"] 0 2; OpInsert ["text"] 0 ["h"; "i"]])
    by reflexivity.
  apply (inserted_values_spell_the_text _ _ _ _ ["text"] 0 ["h"; "i"] Hops).
  right. left. reflexivity.
Defined.

(** An emphasis whose mark carries attributes, and a mark over the empty
    range at position 3. *)
Lemma mark_step_operation_exact_witness :
  stepOperations [] (AddMarkStep 1 5 (mkMark "em" (Some urlAttrs))) =
    Returns [OpAddMark ["text"] 0 3 "em" None]
  /\ [OpAddMark ["text"] 0 3 "em" None] =
     [OpAddMark ["text"] 0 3 "em" (addMarkAttrs (mkMark "em" (Some urlAttrs)))]
  /\ stepOperations [] (AddMarkStep 3 3 (mkMark "strong" None)) =
     Returns [OpAddMark ["text"] 2 1 "strong" None].
Proof.
  assert (Hrun : stepOperations [] (AddMarkStep 1 5 (mkMark "em" (Some urlAttrs))) =
                 Returns [OpAddMark ["text"] 0 3 "em" None]) by reflexivity.
  split; [exact Hrun|]. split; [|reflexivity].
  exact (proj1 (mark_step_operation_exact [] _ 1 5 (mkMark "em" (Some urlAttrs))) Hrun).
Defined.

(** "lo" replaced by "hi": the delete patch empties [1, 3), and the second
    character goes to tree position 2. *)
Lemma replace_step_round_trip_witness :
  applyPatchToTransaction docLo (deletePatch ["text"] 0 2) =
    Returns (mkPlain "" [ReplaceStep 1 3 (Some Slice_empty)])
  /\ applyPatchToTransaction docLo (insertPatch ["text"] (0 + 1) ["i"]) =
     Returns (mkPlain "lio" [ReplaceStep 2 2 (Some (textSlice "i"))]).
Proof.
  assert (Hops : stepOperations [] (ReplaceStep 1 3 (Some (textSlice "hi"))) =
                 Returns [OpDelete ["text"] 0 2; OpInsert ["text"] 0 ["h"; "i"]])
    by reflexivity.
  destruct (replace_step_round_trip (editor := plainEditor) docLo _ _ _ _ Hops)
    as [Hdelete Hinsert].
  split.
  - apply (Hdelete ["text"] 0 2). left. reflexivity.
  - apply (Hinsert ["text"] 0 ["h"; "i"] 1%nat "i"); [right; left|]; reflexivity.
Defined.


(** The second change of the batch inserts beyond the end of the text. *)
Lemma failed_batch_leaves_view_witness :
  w_view_state
    (subscribeHandler (freshWorld "lo")
       [[OpInsert ["text"] 0 ["h"]]; [OpInsert ["text"] 9 ["x"]];
        [OpInsert ["text"] 0 ["y"]]]).2 = "lo"
  /\ exists k : nat,
       (1 <= k <= 3)%nat
       /\ w_calls
            (subscribeHandler (freshWorld "lo")
               [[OpInsert ["text"] 0 ["h"]]; [OpInsert ["text"] 9 ["x"]];
                [OpInsert ["text"] 0 ["y"]]]).2 =
          map CallApplyChange
            (take k [[OpInsert ["text"] 0 ["h"]]; [OpInsert ["text"] 9 ["x"]];
                     [OpInsert ["text"] 0 ["y"]]]).
Proof.
  exact (failed_batch_leaves_view (freshWorld "lo") _
           [[OpInsert ["text"] 0 ["h"]]; [OpInsert ["text"] 9 ["x"]];
            [OpInsert ["text"] 0 ["y"]]]
           (ExternalError "RangeError") eq_refl).
Defined.

(** Three documents. *)
Lemma initializeDocs_shares_one_change_witness :
  exists doc0 rest initialChange doc0' rest',
    [[]; []; []] = doc0 :: rest
    /\ [[initialOperations]; [initialOperations]; [initialOperations]] = doc0' :: rest'
    /\ doc_change doc0 initialOperations = (Returns initialChange, doc0')
    /\ Forall2 (fun doc doc' => exists patches,
                  doc_applyChange doc initialChange = (Returns patches, doc'))
         rest rest'.
Proof.
  exact (initializeDocs_shares_one_change [[]; []; []]
           [[initialOperations]; [initialOperations]; [initialOperations]] eq_refl).
Defined.

(** "x" typed in front of "lo". *)
Lemma dispatch_enqueues_the_change_witness :
  dispatchTransaction (freshEditorWorld "lo")
    (mkPlain "xlo" [ReplaceStep 1 1 (Some (textSlice "x"))]) =
  (Returns tt,
   @mkEditorWorld historyEngine plainEditor
     (mkWorld [[OpInsert ["text"] 0 ["x"]]] "xlo"
        [CallChange [OpInsert ["text"] 0 ["x"]]; CallUpdateState "xlo"])
     [[OpInsert ["text"] 0 ["x"]]]).
Proof.
  assert (Hstate : state_apply (w_view_state (e_world (freshEditorWorld "lo")))
                     (mkPlain "xlo" [ReplaceStep 1 1 (Some (textSlice "x"))]) =
                   Returns "xlo") by reflexivity.
  assert (Hops : forSteps [] (tr_steps (mkPlain "xlo"
                                [ReplaceStep 1 1 (Some (textSlice "x"))])) =
                 Returns [OpInsert ["text"] 0 ["x"]]) by reflexivity.
  apply (proj2 (dispatch_enqueues_the_change _ _ _ _ Hstate Hops)).
  - discriminate.
  - reflexivity.
Defined.

(** A comment without an id, added locally. *)
Lemma failed_dispatch_leaves_view_and_queue_witness :
  dispatchTransaction (freshEditorWorld "lo")
    (mkPlain "lo" [AddMarkStep 1 3 (mkMark "comment" None)]) =
    (Throws ExpectedCommentId, freshEditorWorld "lo")
  /\ w_view_state (e_world (freshEditorWorld "lo")) = "lo"
  /\ e_enqueued (freshEditorWorld "lo") = [].
Proof.
  assert (Hrun : dispatchTransaction (freshEditorWorld "lo")
                   (mkPlain "lo" [AddMarkStep 1 3 (mkMark "comment" None)]) =
                 (Throws ExpectedCommentId, freshEditorWorld "lo")) by reflexivity.
  destruct (failed_dispatch_leaves_view_and_queue _ _ _ _ Hrun)
    as (Hview & Hqueue & _ & _).
  split; [exact Hrun|]. split; [exact Hview|exact Hqueue].
Defined.

(** "Mod-k" on "lo", all selected: the link reaches the engine over the
    flat range 0 .. 1. *)
Lemma addMark_command_reaches_engine_witness :
  keymap_Mod_k "q" "lo"
    (Some (fun txn ew => dispatchTransaction ew txn)) (freshEditorWorld "lo") =
  (Returns true,
   @mkEditorWorld historyEngine plainEditor
     (mkWorld
        [[OpAddMark ["text"] 0 1 "link"
            (Some {[ "url" := JsString "https://www.google.com/search?q=q" ]})]]
        "lo"
        [CallChange
           [OpAddMark ["text"] 0 1 "link"
              (Some {[ "url" := JsString "https://www.google.com/search?q=q" ]})];
         CallUpdateState "lo"])
     [[OpAddMark ["text"] 0 1 "link"
         (Some {[ "url" := JsString "https://www.google.com/search?q=q" ]})]]).
Proof.
  exact (proj2 (addMark_command_reaches_engine (freshEditorWorld "lo") "link"
                  (fun _ => {[ "url" := JsString "https://www.google.com/search?q=q" ]})
                  "lo" "lo" _ _ _ eq_refl eq_refl eq_refl eq_refl eq_refl)).
Defined.

(** "Mod-e" with the id "7f". *)
Lemma keymap_marks_pass_validation_witness :
  stepOperations []
    (AddMarkStep 1 3 (schema_mark "comment" (Some {[ "id" := JsString "7f" ]}))) =
  Returns [OpAddMark ["text"] 0 1 "comment" (Some {[ "id" := JsString "7f" ]})].
Proof.
  exact (proj1 (keymap_marks_pass_validation [] "7f" 1 3) eq_refl).
Defined.

(** "h" and then "i": in two batches or in one, the view ends with "hilo". *)
Lemma batches_can_be_merged_witness :
  exists w',
    subscribeHandler (freshWorld "lo")
      ([[OpInsert ["text"] 0 ["h"]]] ++ [[OpInsert ["text"] 1 ["i"]]]) =
    (Returns tt, w')
    /\ w_doc w' = [[OpInsert ["text"] 0 ["h"]]; [OpInsert ["text"] 1 ["i"]]]
    /\ w_view_state w' = "hilo".
Proof.
  exact (batches_can_be_merged (freshWorld "lo")
           (mkWorld [[OpInsert ["text"] 0 ["h"]]] "hlo"
              [CallApplyChange [OpInsert ["text"] 0 ["h"]]; CallUpdateState "hlo"])
           (mkWorld [[OpInsert ["text"] 0 ["h"]]; [OpInsert ["text"] 1 ["i"]]] "hilo"
              [CallApplyChange [OpInsert ["text"] 0 ["h"]]; CallUpdateState "hlo";
               CallApplyChange [OpInsert ["text"] 1 ["i"]]; CallUpdateState "hilo"])
           [[OpInsert ["text"] 0 ["h"]]] [[OpInsert ["text"] 1 ["i"]]]
           ltac:(discriminate) ltac:(discriminate) eq_refl eq_refl).
Defined.

(** The deletion of the first character: the step of [tr.delete(1, 2)]. *)
Lemma pure_deletion_emits_empty_insert_witness :
  1 <> 2
  /\ textBetween_all (slice_content Slice_empty) = ""
  /\ stepOperations [] (ReplaceStep 1 2 (Some Slice_empty)) =
     Returns [OpDelete ["text"] 0 1; OpInsert ["text"] 0 []].
Proof.
  assert (Hne : 1 <> 2) by discriminate.
  split; [exact Hne|]. split; [reflexivity|].
  exact (pure_deletion_emits_empty_insert [] 1 2 Slice_empty Hne eq_refl).
Defined.

(** Two spans on the reference schema.  The first holds two comments, an
    inactive emphasis and an active strong mark: strong comes first, as in
    [ALL_MARKS], then the two comments, each mark with the attributes its
    kind declares.  The second holds an active link. *)
Lemma projection_marks_follow_declaration_order_witness :
  markRequests sampleSpan =
    [("strong", activeFlag true); ("comment", commentId "a"); ("comment", commentId "b")]
  /\ Projection.prosemirrorDocFromCRDT referenceSchema [sampleSpan; linkSpan] =
     Returns
       (ElementNode "doc"
          [ElementNode "paragraph"
             [TextNode "hi"
                [mkMark "strong" (Some ∅);
                 mkMark "comment" (Some (commentId "a"));
                 mkMark "comment" (Some (commentId "b"))];
              TextNode "!" [mkMark "link" (Some {[ "url" := JsString "u" ]})]]]).
Proof.
  split; [reflexivity|].
  rewrite (projection_marks_follow_declaration_order referenceSchema
             [sampleSpan; linkSpan]).
  reflexivity.
Defined.

(** On the reference schema two spans with the same marks end in one text
    node, and a link without url stops the projection. *)
Lemma projection_runs :
  Projection.prosemirrorDocFromCRDT referenceSchema [mkSpan "he" ∅; mkSpan "y" ∅] =
    Returns (ElementNode "doc" [ElementNode "paragraph" [TextNode "hey" []]])
  /\ Projection.prosemirrorDocFromCRDT referenceSchema
       [mkSpan "a" {[ "link" := MarkValueSingle (activeFlag true) ]}] =
     Throws (ExternalError "RangeError").
Proof. split; reflexivity. Qed.

(** A peer sends, as second change of a batch, a change with a patch of the
    action "set". *)
Lemma unhandled_patch_aborts_batch_witness :
  exists e,
    @subscribeHandler relayEngine plainEditor (relayWorld 0 [])
      ([[insertPatch ["text"] 0 ["x"]]] ++ setChange :: [[insertPatch ["text"] 0 ["i"]]]) =
    (Throws e,
     relayWorld 2
       [@CallApplyChange relayEngine plainEditor [insertPatch ["text"] 0 ["x"]];
        @CallApplyChange relayEngine plainEditor setChange]).
Proof.
  assert (Hout : ~ In (action setPatch) handledActions).
  { simpl. intros [H|[H|[H|[H|[H|[]]]]]]; discriminate H. }
  assert (Hbefore :
    @forChanges relayEngine plainEditor (relayWorld 0 []) "lo"
      [[insertPatch ["text"] 0 ["x"]]] =
    (Returns "xlo",
     relayWorld 1
       [@CallApplyChange relayEngine plainEditor [insertPatch ["text"] 0 ["x"]]]))
    by reflexivity.
  exact (@unhandled_patch_aborts_batch relayEngine plainEditor
           (relayWorld 0 []) _ [[insertPatch ["text"] 0 ["x"]]]
           [[insertPatch ["text"] 0 ["i"]]] setChange "xlo" setChange 2%nat setPatch
           Hbefore eq_refl (or_intror (or_introl eq_refl)) Hout).
Defined.

End MoreRuns.
